(** * salticidae: the segmented byte buffer and the connection pool

    A shallow embedding of [salticidae/conn.h] (class [RingBuffer], class
    [ConnPool] and its nested class [ConnPool::Conn]) and of the one type of
    [salticidae/type.h] the header uses ([bytearray_t]), followed by the
    properties of the buffer and of the pool that are proved about them. *)

From Stdlib Require Import ZArith Strings.Byte PrimFloat.
From Equations Require Import Equations.
From coqutil Require Import Word.Interface Word.Properties Word.Naive.
From stdpp Require Import base option list gmap.

Local Open Scope nat_scope.

(** ** Machine types *)

(** [size_t] on the 64-bit targets the library builds for: arithmetic wraps
    modulo 2^64 ([word.add], [word.sub]). *)
Abbreviation size_t := Naive.word64.

#[local] Existing Instance Naive.word64_ok.

(** [using bytearray_t = std::vector<uint8_t>] (type.h). *)
Definition bytearray_t : Type := list byte.

(** [v.size()] of a vector, as the [size_t] the code adds to and subtracts
    from [_size]. *)
Definition vec_size {A} (v : list A) : size_t := word.of_Z (Z.of_nat (length v)).

(** ** RingBuffer *)

Module RingBuffer.

(** [struct buffer_entry_t].  The iterator [offset] always points into
    [data]; it is kept as its distance [offset - data.begin()], which is
    also how the copy and move constructors of the struct carry it over. *)
Record buffer_entry_t : Type := mk_entry {
  data : bytearray_t;
  offset : nat
}.

(** [buffer_entry_t(bytearray_t &&_data)]: [offset = data.begin()]. *)
Definition entry_of_data (_data : bytearray_t) : buffer_entry_t :=
  {| data := _data; offset := 0 |}.

(** [buffer_entry_t(buffer_entry_t &&other)]. *)
Definition entry_move (other : buffer_entry_t) : buffer_entry_t :=
  let _offset := offset other - 0 in
  {| data := data other; offset := 0 + _offset |}.

(** [buffer_entry_t(const buffer_entry_t &other)]. *)
Definition entry_copy (other : buffer_entry_t) : buffer_entry_t :=
  {| data := data other; offset := 0 + (offset other - 0) |}.

(** [size_t length() const { return data.end() - offset; }] *)
Definition entry_length (e : buffer_entry_t) : nat :=
  length (data e) - offset e.

(** The bytes of the range [[offset, data.end())]. *)
Definition unconsumed (e : buffer_entry_t) : bytearray_t :=
  drop (offset e) (data e).

(** [class RingBuffer]: [std::list<buffer_entry_t> ring; size_t _size;]. *)
Record t : Type := mk {
  ring : list buffer_entry_t;
  _size : size_t
}.

(** [RingBuffer(): _size(0) {}] *)
Definition empty : t := {| ring := []; _size := word.of_Z 0 |}.

(** [void push(bytearray_t &&data)].  [push_back] move-constructs the list
    node from the temporary entry. *)
Definition push (data : bytearray_t) (b : t) : t :=
  {| _size := word.add (_size b) (vec_size data);
     ring := ring b ++ [entry_move (entry_of_data data)] |}.

(** The [while] loop of [pop].  The list argument is the range
    [[i, ring.end())] of the iterator [i]: the loop only reads and writes
    [*i] and moves [i] forward, and the elements before [i] are the ones
    that [ring.erase(ring.begin(), i)] drops after the loop.  [len] ranges
    over [size_t]; the loop compares it with zero, takes a minimum with it
    and subtracts from it a value that is not larger, so none of its
    operations wraps.  One unit of [fuel] is spent per evaluation of the
    loop condition; [None] means the fuel ran out before the loop exited. *)
Fixpoint pop_loop (fuel : nat) (from_i : list buffer_entry_t) (len : nat)
    (res : bytearray_t) : option (list buffer_entry_t * bytearray_t) :=
  match fuel with
  | O => None
  | S fuel =>
      match Nat.eqb len 0, from_i with
      | false, e :: tl =>
          let copy_len := Nat.min (entry_length e) len in
          let res := res ++ take copy_len (unconsumed e) in
          let e := {| data := data e; offset := offset e + copy_len |} in
          let len := len - copy_len in
          if Nat.eqb (offset e) (length (data e))
          then pop_loop fuel tl len res
          else pop_loop fuel (e :: tl) len res
      | _, _ => Some (from_i, res)
      end
  end.

(** A bound on the number of times [pop] evaluates its loop condition:
    every iteration but the last moves [i] to the next segment. *)
Definition pop_fuel (b : t) : nat := S (S (length (ring b))).

(** [bytearray_t pop(size_t len)]: the popped bytes and the buffer after
    the call. *)
Definition pop (len : nat) (b : t) : option (bytearray_t * t) :=
  match pop_loop (pop_fuel b) (ring b) len [] with
  | Some (from_i, res) =>
      Some (res, {| ring := from_i; _size := word.sub (_size b) (vec_size res) |})
  | None => None
  end.

(** [size_t size() const { return _size; }] *)
Definition size (b : t) : size_t := _size b.

(** [void clear()] *)
Definition clear (b : t) : t := {| ring := []; _size := word.of_Z 0 |}.

End RingBuffer.

(** ** RingBuffer objects: construction, assignment, aliasing

    The copy and move operations of the class take their argument by
    reference and test [this != &other], so they are stated on a store of
    buffer objects indexed by address. *)

Module RingBufferObj.

Import RingBuffer.

Abbreviation addr := nat.
Abbreviation store := (gmap nat RingBuffer.t).

(** [void swap(RingBuffer &other)]: the pair is [( *this, other)] after the
    call. *)
Definition swap (this other : RingBuffer.t) : RingBuffer.t * RingBuffer.t :=
  ({| ring := ring other; _size := _size other |},
   {| ring := ring this; _size := _size this |}).

(** [RingBuffer(const RingBuffer &other)]: the copy constructor of
    [std::list] copies every node with [buffer_entry_t]'s. *)
Definition copy_ctor (other : RingBuffer.t) : RingBuffer.t :=
  {| ring := entry_copy <$> ring other; _size := _size other |}.

(** [RingBuffer(RingBuffer &&other)]: the new object and [other] after the
    call.  The move constructor of [std::list] takes over the nodes and
    leaves [other.ring] empty. *)
Definition move_ctor (other : RingBuffer.t) : RingBuffer.t * RingBuffer.t :=
  ({| ring := ring other; _size := _size other |},
   {| ring := []; _size := word.of_Z 0 |}).

(** [~RingBuffer() { clear(); }] of a local object. *)
Definition dtor (this : RingBuffer.t) : RingBuffer.t := clear this.

(** [RingBuffer &operator=(RingBuffer &&other)] *)
Definition move_assign (this other : addr) (st : store) : option store :=
  if decide (this = other) then Some st else
  o ← st !! other;
  let '(tmp, o) := move_ctor o in
  let st := <[other := o]> st in
  t ← st !! this;
  let '(tmp, t) := swap tmp t in
  let st := <[this := t]> st in
  let _ := dtor tmp in
  Some st.

(** [RingBuffer &operator=(const RingBuffer &other)] *)
Definition copy_assign (this other : addr) (st : store) : option store :=
  if decide (this = other) then Some st else
  o ← st !! other;
  let tmp := copy_ctor o in
  t ← st !! this;
  let '(tmp, t) := swap tmp t in
  let st := <[this := t]> st in
  let _ := dtor tmp in
  Some st.

(** Construction of a new object at address [this] from the object at
    [other]. *)
Definition copy_construct (this other : addr) (st : store) : option store :=
  o ← st !! other;
  Some (<[this := copy_ctor o]> st).

Definition move_construct (this other : addr) (st : store) : option store :=
  o ← st !! other;
  let '(n, o) := move_ctor o in
  Some (<[this := n]> (<[other := o]> st)).

(** [push] and [pop] called on the object at an address. *)
Definition push_at (this : addr) (data : bytearray_t) (st : store) : option store :=
  b ← st !! this;
  Some (<[this := push data b]> st).

Definition pop_at (this : addr) (len : nat) (st : store)
    : option (bytearray_t * store) :=
  b ← st !! this;
  '(res, b) ← pop len b;
  Some (res, <[this := b]> st).

(** What the description of moving promises of an assignment
    [this = std::move(other)]: the call returns and leaves the source empty
    with [size()] 0. *)
Definition move_leaves_source_empty (this other : addr) (st : store) : Prop :=
  exists st' s,
    move_assign this other st = Some st' /\
    st' !! other = Some s /\
    ring s = [] /\ word.unsigned (size s) = 0%Z.

End RingBufferObj.

(** ** Collaborators declared in headers outside this unit *)

(** Modelled from the spec: [salticidae/event.h] ([Event], [EventContext])
    is not among the sources.  The reactor lets the core "register a
    callback for readable, writable or after delay T on a given socket
    handle" and "cancel a previously registered callback"; an [Event] is
    such a registration or none, and [clear] cancels it. *)
Inductive Event : Type :=
| Event_none
| Event_registered (fd : Z) (events : Z).

Definition Event_clear (ev : Event) : Event := Event_none.

Definition EventContext : Type := nat.

(** libevent's flags [EV_READ] and [EV_WRITE] ([event2/event.h]). *)
Definition EV_READ : Z := 2.
Definition EV_WRITE : Z := 4.

(** Modelled from the spec: [salticidae/netaddr.h] ([NetAddr]) is not
    among the sources; an address is "an opaque, immutable value
    identifying a remote or local endpoint", here an IPv4 address and a
    port. *)
Record NetAddr : Type := mk_NetAddr { ip : Z; port : Z }.

(** [class ConnPoolError: public SalticidaeError]: the error type of the
    pool, thrown to the caller.  The step of the setup that failed stands
    for the message it carries. *)
Inductive setup_step : Type := Setup_socket | Setup_bind | Setup_listen.

Inductive ConnPoolError : Type := mk_ConnPoolError (what : setup_step).

(** ** ConnPool and ConnPool::Conn *)

Module ConnPool.

(** [using conn_t = RcObj<Conn>]: a counted reference to a connection
    object, kept as the identity of the object it points to. *)
Abbreviation conn_t := nat.

Inductive ConnMode : Type :=
| ACTIVE   (**r the connection is established by connect() *)
| PASSIVE. (**r the connection is established by accept() *)

(** [class Conn].  [cpool] is not a field here: a world holds the one pool
    that its connections point to. *)
Record Conn : Type := mk_Conn {
  seg_buff_size : size_t;
  self_ref : option conn_t;
  fd : Z;
  mode : ConnMode;
  addr : NetAddr;
  send_buffer : RingBuffer.t;
  recv_buffer : RingBuffer.t;
  ev_read : Event;
  ev_write : Event;
  ev_connect : Event;
  ready_send : bool
}.

(** The data members of [class ConnPool]; [pool_seg_buff_size] is its
    member [seg_buff_size], named apart from the one of [Conn]. *)
Record t : Type := mk {
  max_listen_backlog : Z;
  try_conn_delay : float;
  conn_server_timeout : float;
  pool_seg_buff_size : size_t;
  pool : gmap Z conn_t;
  listen_fd : Z;
  ev_listen : Event;
  eb : EventContext
}.

(** What a run does that is visible outside the objects: system calls,
    calls of member functions whose bodies are not in the header, and calls
    of the hooks that the application implements. *)
Inductive effect : Type :=
| Sys_close (fd : Z)
| Sys_socket (fd : option Z)
| Sys_bind (fd : Z) (a : NetAddr) (ok : bool)
| Sys_listen (fd : Z) (backlog : Z) (ok : bool)
| Call_send_data (c : conn_t) (fd : Z) (events : Z)
| Hook_on_read (c : conn_t)
| Hook_on_setup (c : conn_t)
| Hook_on_teardown (c : conn_t).

(** The connection objects, the pool and the effects so far. *)
Record World : Type := mk_World {
  conns : gmap conn_t Conn;
  cpool : t;
  trace : list effect
}.

Definition emit (e : effect) (w : World) : World :=
  {| conns := conns w; cpool := cpool w; trace := trace w ++ [e] |}.

Definition set_conn (c : conn_t) (v : Conn) (w : World) : World :=
  {| conns := <[c := v]> (conns w); cpool := cpool w; trace := trace w |}.

Definition set_pool (p : t) (w : World) : World :=
  {| conns := conns w; cpool := p; trace := trace w |}.

(** [Conn(): self_ref(this) {}]; the other members start with whatever the
    caller (the pool) assigns, given here as [init]. *)
Definition Conn_ctor (this : conn_t) (init : Conn) : Conn :=
  {| seg_buff_size := seg_buff_size init;
     self_ref := Some this;
     fd := fd init;
     mode := mode init;
     addr := addr init;
     send_buffer := RingBuffer.empty;
     recv_buffer := RingBuffer.empty;
     ev_read := Event_none;
     ev_write := Event_none;
     ev_connect := Event_none;
     ready_send := ready_send init |}.

(** [virtual void close()], as [Conn] defines it. *)
Definition Conn_close (this : conn_t) (w : World) : World :=
  match conns w !! this with
  | Some c =>
      let w := emit (Sys_close (fd c)) w in
      set_conn this
        {| seg_buff_size := seg_buff_size c;
           self_ref := self_ref c;
           fd := -1;
           mode := mode c;
           addr := addr c;
           send_buffer := send_buffer c;
           recv_buffer := recv_buffer c;
           ev_read := Event_clear (ev_read c);
           ev_write := Event_clear (ev_write c);
           ev_connect := Event_clear (ev_connect c);
           ready_send := ready_send c |} w
  | None => w
  end.

Definition with_send_buffer (b : RingBuffer.t) (c : Conn) : Conn :=
  {| seg_buff_size := seg_buff_size c;
     self_ref := self_ref c;
     fd := fd c;
     mode := mode c;
     addr := addr c;
     send_buffer := b;
     recv_buffer := recv_buffer c;
     ev_read := ev_read c;
     ev_write := ev_write c;
     ev_connect := ev_connect c;
     ready_send := ready_send c |}.

Definition with_self_ref (r : option conn_t) (c : Conn) : Conn :=
  {| seg_buff_size := seg_buff_size c;
     self_ref := r;
     fd := fd c;
     mode := mode c;
     addr := addr c;
     send_buffer := send_buffer c;
     recv_buffer := recv_buffer c;
     ev_read := ev_read c;
     ev_write := ev_write c;
     ev_connect := ev_connect c;
     ready_send := ready_send c |}.

Definition with_registry (m : gmap Z conn_t) (p : t) : t :=
  {| max_listen_backlog := max_listen_backlog p;
     try_conn_delay := try_conn_delay p;
     conn_server_timeout := conn_server_timeout p;
     pool_seg_buff_size := pool_seg_buff_size p;
     pool := m;
     listen_fd := listen_fd p;
     ev_listen := ev_listen p;
     eb := eb p |}.

Definition with_listener (lfd : Z) (ev : Event) (p : t) : t :=
  {| max_listen_backlog := max_listen_backlog p;
     try_conn_delay := try_conn_delay p;
     conn_server_timeout := conn_server_timeout p;
     pool_seg_buff_size := pool_seg_buff_size p;
     pool := pool p;
     listen_fd := lfd;
     ev_listen := ev;
     eb := eb p |}.

Section Sending.

(** [void send_data(evutil_socket_t, short)] is declared in the class and
    defined outside the header: its effect on the world is a parameter. *)
Variable send_data_body : conn_t -> Z -> Z -> World -> World.

Definition send_data (this : conn_t) (fd : Z) (events : Z) (w : World) : World :=
  send_data_body this fd events (emit (Call_send_data this fd events) w).

(** [void write(bytearray_t &&data)] *)
Definition write (this : conn_t) (data : bytearray_t) (w : World) : World :=
  match conns w !! this with
  | Some c =>
      let c := with_send_buffer (RingBuffer.push data (send_buffer c)) c in
      let w := set_conn this c w in
      if ready_send c then send_data this (fd c) EV_WRITE w else w
  | None => w
  end.

End Sending.

(** [void move_send_buffer(conn_t other) { send_buffer =
    std::move(other->send_buffer); }]: the move assignment of [RingBuffer]
    from the [send_buffer] member of [other] to that of [this]; the two
    members are one object exactly when the two connections are, which is
    what [this != &other] in the assignment tests. *)
Definition move_send_buffer (this other : conn_t) (w : World) : World :=
  match conns w !! this, conns w !! other with
  | Some _, Some o =>
      if decide (this = other) then w else
      let '(tmp, ob) := RingBufferObj.move_ctor (send_buffer o) in
      let w := set_conn other (with_send_buffer ob o) w in
      match conns w !! this with
      | Some t =>
          let '(tmp, tb) := RingBufferObj.swap tmp (send_buffer t) in
          let w := set_conn this (with_send_buffer tb t) w in
          let _ := RingBufferObj.dtor tmp in
          w
      | None => w
      end
  | _, _ => w
  end.

(** Modelled from the spec: [void terminate()] is declared in the class and
    defined outside the header.  "On first call: cancels all pending event
    registrations, closes the socket handle, invokes the teardown hook,
    removes the entry from the pool registry, and releases the internal
    self-reference.  Subsequent calls are no-ops."  The first call is told
    apart by the self-reference, "set at construction and cleared exactly
    once inside terminate()"; the first two steps are [close()]; the
    registry is keyed by the socket handle the connection had. *)
Definition terminate (this : conn_t) (w : World) : World :=
  match conns w !! this with
  | Some c =>
      match self_ref c with
      | Some _ =>
          let handle := fd c in
          let w := Conn_close this w in
          let w := emit (Hook_on_teardown this) w in
          let w := set_pool (with_registry (delete handle (pool (cpool w))) (cpool w)) w in
          match conns w !! this with
          | Some c => set_conn this (with_self_ref None c) w
          | None => w
          end
      | None => w
      end
  | None => w
  end.

(** The arguments a caller passes to the constructor after [eb]: the
    trailing ones may be left out. *)
Inductive ctor_args : Type :=
| Args0
| Args1 (max_listen_backlog : Z)
| Args2 (max_listen_backlog : Z) (try_conn_delay : float)
| Args3 (max_listen_backlog : Z) (try_conn_delay conn_server_timeout : float)
| Args4 (max_listen_backlog : Z) (try_conn_delay conn_server_timeout : float)
        (seg_buff_size : size_t).

(** [ConnPool(const EventContext &eb, int max_listen_backlog = 10,
    double try_conn_delay = 2, double conn_server_timeout = 2,
    size_t seg_buff_size = 4096)].  [listen_fd] is not initialised by the
    constructor; [indeterminate] is the value it happens to hold. *)
Definition ctor_full (eb : EventContext) (max_listen_backlog : Z)
    (try_conn_delay conn_server_timeout : float) (seg_buff_size : size_t)
    (indeterminate : Z) : t :=
  {| max_listen_backlog := max_listen_backlog;
     try_conn_delay := try_conn_delay;
     conn_server_timeout := conn_server_timeout;
     pool_seg_buff_size := seg_buff_size;
     pool := ∅;
     listen_fd := indeterminate;
     ev_listen := Event_none;
     eb := eb |}.

Definition ctor (eb : EventContext) (args : ctor_args) (indeterminate : Z) : t :=
  match args with
  | Args0 => ctor_full eb 10 2%float 2%float (word.of_Z 4096) indeterminate
  | Args1 a => ctor_full eb a 2%float 2%float (word.of_Z 4096) indeterminate
  | Args2 a b => ctor_full eb a b 2%float (word.of_Z 4096) indeterminate
  | Args3 a b c => ctor_full eb a b c (word.of_Z 4096) indeterminate
  | Args4 a b c d => ctor_full eb a b c d indeterminate
  end.

Section Destroying.

(** [conn->close()] in the destructor is a call of the virtual [close()]
    through a [conn_t]: [Conn] is abstract, every object is of a class
    derived from it, and the body that runs is the one of that class.
    [virtual_close conn] is that body for the object [conn]; for a class
    that does not override [close()] it is [Conn_close conn]. *)
Variable virtual_close : conn_t -> World -> World.

(** [~ConnPool()]: the loop over the registry.  [std::unordered_map] fixes
    no order of iteration; [its] is the sequence of entries in the order
    the loop meets them. *)
Definition dtor_loop (its : list (Z * conn_t)) (w : World) : World :=
  foldl (fun w it => let conn := it.2 in virtual_close conn w) w its.

End Destroying.

(** What the operating system answers to the calls of [listen]. *)
Record os_listen : Type := mk_os_listen {
  os_socket : option Z;
  os_bind_ok : bool;
  os_listen_ok : bool
}.

(** Modelled from the spec: [void listen(NetAddr listen_addr)] is declared
    in the class and defined outside the header.  It "binds and listens on
    address with the configured backlog; registers for read-readiness on
    the listening socket.  Fails (reporting a setup error) if binding or
    listening fails at the OS level"; setup errors (bind, listen, socket
    creation) are "reported synchronously to the caller ... as a typed
    failure; fatal to that call, not to the pool". *)
Definition listen (os : os_listen) (listen_addr : NetAddr) (w : World)
    : (ConnPoolError + unit) * World :=
  let w := emit (Sys_socket (os_socket os)) w in
  match os_socket os with
  | None => (inl (mk_ConnPoolError Setup_socket), w)
  | Some lfd =>
      let w := emit (Sys_bind lfd listen_addr (os_bind_ok os)) w in
      if negb (os_bind_ok os) then (inl (mk_ConnPoolError Setup_bind), w) else
      let backlog := max_listen_backlog (cpool w) in
      let w := emit (Sys_listen lfd backlog (os_listen_ok os)) w in
      if negb (os_listen_ok os) then (inl (mk_ConnPoolError Setup_listen), w) else
      (inr tt,
       set_pool (with_listener lfd (Event_registered lfd EV_READ) (cpool w)) w)
  end.

End ConnPool.

(** ** Observations and runs of a buffer *)

Module BufferModel.

Import RingBuffer.

(** The cursor of a segment is an iterator into its own data. *)
Definition entry_wf (e : buffer_entry_t) : Prop := offset e <= length (data e).

Definition wf (b : RingBuffer.t) : Prop := Forall entry_wf (ring b).

(** The logical content of a list of segments: the unconsumed tails, in
    insertion order. *)
Definition contents_of (l : list buffer_entry_t) : bytearray_t :=
  concat (unconsumed <$> l).

Definition contents (b : RingBuffer.t) : bytearray_t := contents_of (ring b).

(** The sum of the unconsumed bytes of the segments. *)
Definition total_of (l : list buffer_entry_t) : nat :=
  foldr (fun e n => entry_length e + n) 0 l.

Definition total (b : RingBuffer.t) : nat := total_of (ring b).

(** The cursor of the front segment moved forward by [m]; the data of the
    segment and the segments behind it as they are. *)
Definition advance_front (m : nat) (l : list buffer_entry_t) : list buffer_entry_t :=
  match l with
  | [] => []
  | e :: tl => {| data := data e; offset := offset e + m |} :: tl
  end.

(** A sequence of [push] calls, first to last. *)
Definition pushes (ds : list bytearray_t) (b : RingBuffer.t) : RingBuffer.t :=
  foldl (fun b d => push d b) b ds.

(** A sequence of [pop] calls, first to last: what each call returned and
    the buffer after the last. *)
Fixpoint pops (lens : list nat) (b : RingBuffer.t)
    : option (list bytearray_t * RingBuffer.t) :=
  match lens with
  | [] => Some ([], b)
  | len :: lens =>
      '(res, b) ← pop len b;
      '(rs, b) ← pops lens b;
      Some (res :: rs, b)
  end.

(** The states a buffer goes through: created empty, then changed by
    [push], [pop] and [clear] only. *)
Inductive reachable : RingBuffer.t -> Prop :=
| reach_empty : reachable empty
| reach_push data b : reachable b -> reachable (push data b)
| reach_pop len b res b' : reachable b -> pop len b = Some (res, b') -> reachable b'
| reach_clear b : reachable b -> reachable (clear b).

(** The counter holds the sum of the unconsumed bytes as a [size_t]. *)
Definition size_ok (b : RingBuffer.t) : Prop :=
  _size b = word.of_Z (Z.of_nat (total b)).

End BufferModel.

(** ** Observations of a world *)

Module ConnModel.

Import ConnPool.

(** A connection as [close()] leaves it: no event registered, no socket
    handle. *)
Definition closed (c : Conn) : Prop :=
  ev_read c = Event_none /\ ev_write c = Event_none /\
  ev_connect c = Event_none /\ fd c = (-1)%Z.

Definition is_sys_close (e : effect) : Prop :=
  match e with Sys_close _ => True | _ => False end.

Definition is_teardown (c : conn_t) (e : effect) : bool :=
  match e with Hook_on_teardown c' => Nat.eqb c c' | _ => false end.

(** How many times the teardown hook of [c] was called. *)
Definition teardowns (c : conn_t) (tr : list effect) : nat :=
  length (List.filter (is_teardown c) tr).

Definition is_send_data (e : effect) : bool :=
  match e with Call_send_data _ _ _ => true | _ => false end.

(** How many times [send_data] was called. *)
Definition send_data_calls (tr : list effect) : nat :=
  length (List.filter is_send_data tr).

(** What [close()] keeps of a connection. *)
Definition kept (c c' : Conn) : Prop :=
  self_ref c' = self_ref c /\ send_buffer c' = send_buffer c /\
  recv_buffer c' = recv_buffer c /\ mode c' = mode c /\ addr c' = addr c /\
  seg_buff_size c' = seg_buff_size c /\ ready_send c' = ready_send c.

(** The class of the object [l] does not override [close()]: the call
    through [conn_t] runs the body that [Conn] defines. *)
Definition close_not_overridden (virtual_close : conn_t -> World -> World)
    (l : conn_t) : Prop :=
  forall w, virtual_close l w = Conn_close l w.


End ConnModel.

(** ** Interleaved runs and non-empty pushes *)

Module BufferRuns.

Import RingBuffer.

(** A call on a buffer. *)
Inductive op : Type :=
| Push (data : bytearray_t)
| Pop (len : nat).

(** A sequence of calls, first to last: what the [pop] calls returned, in
    order, and the buffer after the last call. *)
Fixpoint run (ops : list op) (b : RingBuffer.t)
    : option (list bytearray_t * RingBuffer.t) :=
  match ops with
  | [] => Some ([], b)
  | Push data :: ops => run ops (push data b)
  | Pop len :: ops =>
      '(res, b) ← pop len b;
      '(rs, b) ← run ops b;
      Some (res :: rs, b)
  end.

(** The byte sequences the [push] calls of a sequence pass, in order. *)
Definition pushed (ops : list op) : list bytearray_t :=
  omap (fun o => match o with Push data => Some data | Pop _ => None end) ops.

(** The states of a buffer that is only ever pushed non-empty byte
    sequences. *)
Inductive reachable_ne : RingBuffer.t -> Prop :=
| reach_ne_empty : reachable_ne empty
| reach_ne_push data b : data <> [] -> reachable_ne b -> reachable_ne (push data b)
| reach_ne_pop len b res b' :
    reachable_ne b -> pop len b = Some (res, b') -> reachable_ne b'
| reach_ne_clear b : reachable_ne b -> reachable_ne (clear b).

(** A segment with bytes left to consume. *)
Definition entry_live (e : buffer_entry_t) : Prop := offset e < length (data e).

End BufferRuns.

(** ** type.h: the compile-time logarithm *)

Module TypeH.

Local Open Scope Z_scope.

(** [template<size_t N> struct log2 { enum { value = 1 + log2<N / 2>::value }; }]
    with the specialisations [log2<0>] and [log2<1>], both of value 0. *)
Equations? log2 (n : N) : Z by wf (N.to_nat n) lt :=
  log2 n with N.eq_dec n 0%N := {
    | left _ => 0
    | right _ with N.eq_dec n 1%N := {
        | left _ => 0
        | right _ => 1 + log2 (n / 2) } }.
Proof.
  assert (n / 2 < n)%N by (apply N.div_lt; lia). lia.
Defined.

End TypeH.

(** * Properties *)

Import RingBuffer BufferModel BufferRuns ConnPool ConnModel.

(** ** Zero-length pop *)

(** C6: for every state of the buffer, [pop(0)] returns the empty byte
    sequence and the buffer after the call is the buffer before it: same
    segments with the same contents and cursors, same [size()]. *)
Theorem pop_zero_noop (b : RingBuffer.t) :
  exists b',
    pop 0 b = Some ([], b') /\
    b' = b /\ ring b' = ring b /\ size b' = size b.
Proof.
  exists b. split; [|auto].
  destruct b as [r s]. unfold pop, pop_fuel. cbn [pop_loop Nat.eqb ring _size].
  do 2 f_equal. f_equal. unfold vec_size. cbn [length Z.of_nat].
  apply word.sub_0_r.
Qed.

(** The example of a run: [push([1,2,3])], [push([4,5])], then [pop(4)],
    [pop(10)] and [pop(1)], with [size()] after each step. *)
Example buffer_example :
  let b := pushes [[x01; x02; x03]; [x04; x05]]%byte empty in
  word.unsigned (size b) = 5%Z /\
  exists b1 b2 b3,
    pop 4 b = Some ([x01; x02; x03; x04]%byte, b1) /\ word.unsigned (size b1) = 1%Z /\
    pop 10 b1 = Some ([x05]%byte, b2) /\ word.unsigned (size b2) = 0%Z /\
    pop 1 b2 = Some ([], b3) /\ word.unsigned (size b3) = 0%Z.
Proof.
  split; [reflexivity|]. do 3 eexists.
  repeat (split; [vm_compute; reflexivity|]). vm_compute. reflexivity.
Qed.

(** ** Defaults of the pool's configuration *)

(** C10: a pool constructed from an event context alone has accept backlog
    10, connect retry delay 2, passive-setup timeout 2 and segment buffer
    size 4096. *)
Theorem ctor_defaults (eb : EventContext) (indeterminate : Z) :
  let p := ConnPool.ctor eb ConnPool.Args0 indeterminate in
  ConnPool.max_listen_backlog p = 10%Z /\
  ConnPool.try_conn_delay p = 2%float /\
  ConnPool.conn_server_timeout p = 2%float /\
  word.unsigned (ConnPool.pool_seg_buff_size p) = 4096%Z /\
  ConnPool.pool_seg_buff_size p = word.of_Z 4096.
Proof. cbn. repeat split; reflexivity. Qed.

(** ** The loop of pop *)

Section PopLoop.

Implicit Types (e : buffer_entry_t) (l : list buffer_entry_t).

Lemma length_unconsumed e : length (unconsumed e) = entry_length e.
Proof. unfold unconsumed, entry_length. apply length_drop. Qed.

Lemma contents_of_cons e l : contents_of (e :: l) = unconsumed e ++ contents_of l.
Proof. reflexivity. Qed.

Lemma contents_of_app l1 l2 : contents_of (l1 ++ l2) = contents_of l1 ++ contents_of l2.
Proof. unfold contents_of. rewrite fmap_app. apply concat_app. Qed.

Lemma length_contents_of l : length (contents_of l) = total_of l.
Proof.
  induction l as [|e l IH]; [reflexivity|].
  rewrite contents_of_cons, length_app, length_unconsumed, IH. reflexivity.
Qed.

Lemma advance_front_0 l : advance_front 0 l = l.
Proof. destruct l as [|[d o] tl]; cbn; [|rewrite Nat.add_0_r]; reflexivity. Qed.

(** With a unit of fuel per segment and two to spare the loop exits, and
    what it leaves is described by the number [k] of segments it went
    past and the number [m] of bytes it took from the next one. *)
Lemma pop_loop_run l :
  Forall entry_wf l ->
  forall fuel len res, length l + 2 <= fuel ->
  exists l' k m,
    pop_loop fuel l len res = Some (l', res ++ take len (contents_of l)) /\
    contents_of l' = drop len (contents_of l) /\
    Forall entry_wf l' /\
    Nat.min len (total_of l) = total_of (take k l) + m /\
    l' = advance_front m (drop k l) /\
    (m = 0 \/ exists e, head (drop k l) = Some e /\ m < entry_length e).
Proof.
  induction 1 as [|e tl He Htl IH]; intros fuel len res Hfuel.
  - destruct fuel as [|fuel]; [lia|].
    exists [], 0, 0. change (contents_of []) with (@nil byte).
    rewrite take_nil, drop_nil, app_nil_r. cbn [pop_loop].
    destruct (Nat.eqb len 0); cbn; repeat split; auto; lia.
  - destruct fuel as [|fuel]; [cbn in Hfuel; lia|]. cbn [length] in Hfuel.
    cbn [pop_loop]. destruct (Nat.eqb_spec len 0) as [->|Hlen].
    + exists (e :: tl), 0, 0. rewrite take_0, drop_0, app_nil_r.
      repeat split; auto using advance_front_0.
    + cbn zeta. cbn [data offset]. rewrite contents_of_cons.
      pose proof (length_unconsumed e) as Hlu. unfold entry_wf in He.
      destruct (Nat.le_gt_cases (entry_length e) len) as [Hle|Hgt].
      * (* the segment is consumed to its end: i++ *)
        rewrite Nat.min_l by exact Hle.
        replace (Nat.eqb (offset e + entry_length e) (length (data e))) with true
          by (symmetry; apply Nat.eqb_eq; unfold entry_length; lia).
        destruct (IH fuel (len - entry_length e) (res ++ take (entry_length e) (unconsumed e)))
          as (l' & k & m & Hrun & Hc & Hwf & Hmin & Hl' & Hm); [lia|].
        exists l', (S k), m. rewrite Hrun.
        rewrite take_ge by lia. rewrite take_app, drop_app, Hlu.
        rewrite (take_ge (unconsumed e)) by lia.
        rewrite (drop_ge (unconsumed e)) by lia.
        rewrite <- app_assoc. cbn [app].
        repeat split; auto.
        cbn [total_of foldr take] in *. fold (total_of tl). fold (total_of (take k tl)). lia.
      * (* the segment is left partly consumed: len becomes 0 *)
        rewrite Nat.min_r by lia.
        replace (Nat.eqb (offset e + len) (length (data e))) with false
          by (symmetry; apply Nat.eqb_neq; unfold entry_length in Hgt; lia).
        rewrite Nat.sub_diag.
        destruct fuel as [|fuel]; [lia|]. cbn [pop_loop Nat.eqb].
        exists ({| data := data e; offset := offset e + len |} :: tl), 0, len.
        rewrite take_app_le, drop_app_le by lia.
        repeat split.
        -- rewrite contents_of_cons. f_equal. unfold unconsumed. cbn [data offset].
           rewrite drop_drop. reflexivity.
        -- constructor; [|exact Htl]. unfold entry_wf, entry_length in *. cbn. lia.
        -- cbn [total_of foldr take]. fold (total_of tl). lia.
        -- right. exists e. cbn. split; [reflexivity|lia].
Qed.

End PopLoop.

(** More fuel does not change what the loop returns. *)
Lemma pop_loop_fuel_mono fuel :
  forall fuel' l len res r,
    pop_loop fuel l len res = Some r -> fuel <= fuel' ->
    pop_loop fuel' l len res = Some r.
Proof.
  induction fuel as [|fuel IH]; intros fuel' l len res r H Hle; [discriminate|].
  destruct fuel' as [|fuel']; [lia|]. cbn [pop_loop] in *.
  destruct (Nat.eqb len 0); [exact H|]. destruct l as [|e tl]; [exact H|].
  cbn zeta in *. destruct (Nat.eqb _ _); (apply IH; [exact H|lia]).
Qed.

(** The bound [pop_fuel] is enough: on a list of segments with valid
    cursors the loop returns with it, and returns the same with any larger
    amount. *)
Lemma pop_fuel_enough (b : RingBuffer.t) len fuel :
  wf b -> pop_fuel b <= fuel ->
  exists r, pop_loop (pop_fuel b) (ring b) len [] = Some r /\
            pop_loop fuel (ring b) len [] = Some r.
Proof.
  intros Hwf Hle.
  destruct (pop_loop_run (ring b) Hwf (pop_fuel b) len [])
    as (l' & _ & _ & Hrun & _); [unfold pop_fuel; lia|].
  eexists. split; [exact Hrun|]. eapply pop_loop_fuel_mono; eauto.
Qed.

(** ** One call of pop on a buffer with valid cursors *)

Section OnePop.

Implicit Types (b : RingBuffer.t).

Lemma pop_spec b len :
  wf b ->
  exists b' k m,
    pop len b = Some (take len (contents b), b') /\
    contents b' = drop len (contents b) /\
    wf b' /\
    _size b' = word.sub (_size b) (vec_size (take len (contents b))) /\
    Nat.min len (total b) = total_of (take k (ring b)) + m /\
    ring b' = advance_front m (drop k (ring b)) /\
    (m = 0 \/ exists e, head (drop k (ring b)) = Some e /\ m < entry_length e).
Proof.
  intros Hwf. unfold pop, pop_fuel.
  destruct (pop_loop_run (ring b) Hwf (S (S (length (ring b)))) len [])
    as (l' & k & m & Hrun & Hc & Hwf' & Hmin & Hl' & Hm); [lia|].
  rewrite Hrun. cbn [app].
  eexists _, k, m. split; [reflexivity|]. cbn [ring _size].
  unfold contents, wf, total. cbn [ring]. auto 10.
Qed.

Lemma length_contents b : length (contents b) = total b.
Proof. apply length_contents_of. Qed.

Lemma contents_push data b : contents (push data b) = contents b ++ data.
Proof.
  unfold contents, push. cbn [ring]. rewrite contents_of_app.
  f_equal. cbn. apply app_nil_r.
Qed.

Lemma total_push data b : total (push data b) = total b + length data.
Proof. rewrite <- !length_contents, contents_push. apply length_app. Qed.

Lemma wf_empty : wf empty.
Proof. constructor. Qed.

Lemma wf_push data b : wf b -> wf (push data b).
Proof.
  intros H. unfold wf, push. cbn [ring]. apply Forall_app. split; [exact H|].
  repeat constructor. unfold entry_wf. cbn. lia.
Qed.

Lemma wf_pop len b res b' : wf b -> pop len b = Some (res, b') -> wf b'.
Proof.
  intros Hwf H. destruct (pop_spec b len Hwf) as (b1 & k & m & E & _ & Hwf' & _).
  rewrite E in H. injection H as _ <-. exact Hwf'.
Qed.

Lemma wf_clear b : wf (clear b).
Proof. constructor. Qed.

Lemma reachable_wf b : reachable b -> wf b.
Proof.
  induction 1; eauto using wf_empty, wf_push, wf_pop, wf_clear.
Qed.

End OnePop.

(** ** The cached size *)

Section CachedSize.

Implicit Types (b : RingBuffer.t).

Lemma size_ok_empty : size_ok empty.
Proof. reflexivity. Qed.

Lemma size_ok_push data b : size_ok b -> size_ok (push data b).
Proof.
  unfold size_ok. intros H. rewrite total_push, Nat2Z.inj_add, word.ring_morph_add.
  cbn [push _size]. rewrite H. reflexivity.
Qed.

Lemma size_ok_pop len b res b' :
  wf b -> size_ok b -> pop len b = Some (res, b') -> size_ok b'.
Proof.
  unfold size_ok. intros Hwf H Hpop.
  destruct (pop_spec b len Hwf) as (b1 & k & m & E & Hc & _ & Hs & _).
  rewrite E in Hpop. injection Hpop as <- <-.
  rewrite Hs, H. unfold vec_size. rewrite <- word.ring_morph_sub. f_equal.
  rewrite <- !length_contents, Hc, length_drop, length_take. lia.
Qed.

Lemma size_ok_clear b : size_ok (clear b).
Proof. reflexivity. Qed.

Lemma reachable_size_ok b : reachable b -> size_ok b.
Proof.
  induction 1;
    eauto using size_ok_empty, size_ok_push, size_ok_pop, size_ok_clear, reachable_wf.
Qed.

Lemma size_ok_unsigned b :
  size_ok b -> word.unsigned (size b) = (Z.of_nat (total b) mod 2 ^ 64)%Z.
Proof.
  unfold size_ok, size. intros ->. rewrite word.unsigned_of_Z. reflexivity.
Qed.

End CachedSize.

(** ** Runs of pushes and pops *)

Section Runs.

Implicit Types (b : RingBuffer.t) (ds : list bytearray_t) (lens : list nat).

Lemma pushes_snoc ds d b : pushes (ds ++ [d]) b = push d (pushes ds b).
Proof. unfold pushes. rewrite foldl_snoc. reflexivity. Qed.

Lemma reachable_pushes ds : reachable (pushes ds empty).
Proof.
  induction ds as [|d ds IH] using rev_ind; [apply reach_empty|].
  rewrite pushes_snoc. apply reach_push, IH.
Qed.

Lemma contents_pushes ds : contents (pushes ds empty) = concat ds.
Proof.
  induction ds as [|d ds IH] using rev_ind; [reflexivity|].
  rewrite pushes_snoc, contents_push, IH, concat_app. cbn. rewrite app_nil_r. reflexivity.
Qed.

Lemma reachable_pops lens :
  forall b outs b', reachable b -> pops lens b = Some (outs, b') -> reachable b'.
Proof.
  induction lens as [|len lens IH]; intros b outs b' Hb H; cbn in H.
  - injection H as _ <-. exact Hb.
  - destruct (pop len b) as [[res b1]|] eqn:E; [|discriminate]. cbn in H.
    destruct (pops lens b1) as [[rs b2]|] eqn:E2; [|discriminate]. cbn in H.
    injection H as _ <-. eapply IH; [|exact E2]. eapply reach_pop; eauto.
Qed.

(** A run of pops on a buffer with valid cursors returns, and what it
    returns is a prefix of the content, cut at the lengths asked for. *)
Lemma pops_spec lens :
  forall b, wf b ->
  exists outs b',
    pops lens b = Some (outs, b') /\
    concat outs = take (sum_list lens) (contents b) /\
    contents b' = drop (sum_list lens) (contents b) /\
    wf b'.
Proof.
  induction lens as [|len lens IH]; intros b Hwf.
  - exists [], b. cbn. rewrite take_0, drop_0. auto.
  - destruct (pop_spec b len Hwf) as (b1 & k & m & E & Hc & Hwf1 & _).
    destruct (IH b1 Hwf1) as (rs & b2 & E2 & Hrs & Hc2 & Hwf2).
    exists (take len (contents b) :: rs), b2. cbn [pops]. rewrite E. cbn. rewrite E2. cbn.
    split; [reflexivity|]. rewrite Hrs, Hc2, Hc, drop_drop, take_take_drop. auto.
Qed.

(** Two buffers with the same content and the same counter return the
    same bytes to the same pops, and stay so. *)
Lemma pops_same_contents lens :
  forall b1 b2, wf b1 -> wf b2 ->
    contents b1 = contents b2 -> _size b1 = _size b2 ->
    exists outs b1' b2',
      pops lens b1 = Some (outs, b1') /\ pops lens b2 = Some (outs, b2') /\
      contents b1' = contents b2' /\ _size b1' = _size b2'.
Proof.
  induction lens as [|len lens IH]; intros b1 b2 Hwf1 Hwf2 Hc Hs.
  - exists [], b1, b2. auto.
  - destruct (pop_spec b1 len Hwf1) as (c1 & k1 & m1 & E1 & Hc1 & Hw1 & Hs1 & _).
    destruct (pop_spec b2 len Hwf2) as (c2 & k2 & m2 & E2 & Hc2 & Hw2 & Hs2 & _).
    destruct (IH c1 c2 Hw1 Hw2) as (rs & c1' & c2' & F1 & F2 & Hc' & Hs').
    { rewrite Hc1, Hc2, Hc. reflexivity. }
    { rewrite Hs1, Hs2, Hc, Hs. reflexivity. }
    exists (take len (contents b1) :: rs), c1', c2'. cbn [pops].
    rewrite E1, E2, <- Hc. cbn. rewrite F1, F2. cbn. auto.
Qed.

End Runs.

(** ** Order and accounting *)

(** C1: a run of [push] calls on an empty buffer followed by a run of
    [pop] calls returns; the bytes popped, concatenated, are the prefix of
    the bytes pushed, concatenated, that the lengths asked for cut off, and
    the rest is the content left in the buffer; [size()] is the number of
    bytes pushed less the number returned.  In every state [b] such a run
    reaches, a call [pop(len)] returns exactly [min(len, total)] bytes, the
    first of the content in order, and removes them; it erases the first
    [k] segments, whose unconsumed bytes it returned in full, and leaves
    the next one in front with its data as it was and its cursor moved by
    the [m] bytes taken from it, fewer than it held. *)
Theorem push_then_pop (ds : list bytearray_t) (lens : list nat) :
  exists outs b,
    pops lens (pushes ds empty) = Some (outs, b) /\
    concat outs = take (sum_list lens) (concat ds) /\
    concat ds = concat outs ++ contents b /\
    word.unsigned (size b) =
      ((Z.of_nat (length (concat ds)) - Z.of_nat (length (concat outs))) mod 2 ^ 64)%Z /\
    forall len, exists res b' k m,
      pop len b = Some (res, b') /\
      res = take (Nat.min len (total b)) (contents b) /\
      length res = Nat.min len (total b) /\
      contents b = res ++ contents b' /\
      length res = total_of (take k (ring b)) + m /\
      res = contents_of (take k (ring b)) ++ take m (contents_of (drop k (ring b))) /\
      ring b' = advance_front m (drop k (ring b)) /\
      (m = 0 \/ exists e, head (drop k (ring b)) = Some e /\ m < entry_length e).
Proof.
  pose proof (reachable_pushes ds) as Hreach.
  destruct (pops_spec lens (pushes ds empty) (reachable_wf _ Hreach))
    as (outs & b & E & Houts & Hc & Hwf).
  rewrite contents_pushes in Houts, Hc.
  assert (Hcat : concat ds = concat outs ++ contents b).
  { rewrite Houts, Hc. symmetry. apply take_drop. }
  exists outs, b. split; [exact E|]. split; [exact Houts|]. split; [exact Hcat|]. split.
  - rewrite (size_ok_unsigned b) by (eapply reachable_size_ok, reachable_pops; eauto).
    f_equal. rewrite Hcat, length_app, length_contents. lia.
  - intros len. destruct (pop_spec b len Hwf) as (b' & k & m & Ep & Hc' & _ & _ & Hmin & Hring & Hm).
    assert (Hlen : length (take len (contents b)) = Nat.min len (total b))
      by (rewrite length_take, length_contents; reflexivity).
    assert (Htake : take len (contents b) = take (Nat.min len (total b)) (contents b)).
    { rewrite <- length_contents. destruct (Nat.le_gt_cases len (length (contents b))).
      - rewrite Nat.min_l by lia. reflexivity.
      - rewrite Nat.min_r by lia. rewrite !take_ge by lia. reflexivity. }
    exists (take len (contents b)), b', k, m.
    split; [exact Ep|]. split; [exact Htake|]. split; [exact Hlen|].
    split; [rewrite Hc'; symmetry; apply take_drop|].
    split; [lia|]. split; [|auto].
    rewrite Htake, Hmin. unfold contents.
    assert (Hsplit : contents_of (ring b) =
              contents_of (take k (ring b)) ++ contents_of (drop k (ring b)))
      by (rewrite <- contents_of_app, take_drop; reflexivity).
    rewrite Hsplit at 1.
    rewrite take_app_add'; [reflexivity|]. symmetry. apply length_contents_of.
Qed.

(** ** The size invariant *)

(** C2: in every state reached from the empty buffer by [push], [pop] and
    [clear], [size()] is the sum of the unconsumed bytes of the stored
    segments: as a [size_t], that is modulo 2^64, and hence the sum itself,
    the segments being held in memory together and their bytes fewer than
    2^64. *)
Theorem size_is_sum_of_unconsumed (b : RingBuffer.t) :
  reachable b ->
  word.unsigned (size b) = (Z.of_nat (total b) mod 2 ^ 64)%Z /\
  ((Z.of_nat (total b) < 2 ^ 64)%Z -> word.unsigned (size b) = Z.of_nat (total b)).
Proof.
  intros H. pose proof (size_ok_unsigned b (reachable_size_ok b H)) as E.
  split; [exact E|]. intros Hlt. rewrite E. apply Z.mod_small. lia.
Qed.

Lemma size_is_sum_of_unconsumed_witness :
  exists b,
    pops [4] (pushes [[x01; x02; x03]; [x04; x05]]%byte empty)
      = Some ([[x01; x02; x03; x04]%byte], b) /\
    reachable b /\ total b = 1 /\ word.unsigned (size b) = 1%Z.
Proof.
  eexists. split; [vm_compute; reflexivity|].
  match goal with |- reachable ?b /\ _ =>
    assert (R : reachable b)
      by (eapply reach_pop with (len := 4);
          [apply (reachable_pushes [[x01; x02; x03]; [x04; x05]]%byte)
          |vm_compute; reflexivity])
  end.
  split; [exact R|]. split; [reflexivity|].
  apply (size_is_sum_of_unconsumed _ R). vm_compute. reflexivity.
Defined.

(** ** Pushing no bytes *)

(** C9: on a buffer whose cursors are valid, [push] of the empty byte
    sequence leaves [size()] and the content as they are, and every run of
    [pop] calls after it returns, call by call, the bytes it returns
    without that push, and leaves the same [size()] and content. *)
Theorem push_empty_unobservable (b : RingBuffer.t) :
  wf b ->
  size (push [] b) = size b /\
  contents (push [] b) = contents b /\
  forall lens, exists outs b1 b2,
    pops lens (push [] b) = Some (outs, b1) /\
    pops lens b = Some (outs, b2) /\
    size b1 = size b2 /\
    contents b1 = contents b2.
Proof.
  intros Hwf.
  assert (Hs : _size (push [] b) = _size b)
    by (unfold push, vec_size; cbn [_size length Z.of_nat]; apply word.add_0_r).
  assert (Hc : contents (push [] b) = contents b)
    by (rewrite contents_push; apply app_nil_r).
  split; [exact Hs|]. split; [exact Hc|]. intros lens.
  destruct (pops_same_contents lens (push [] b) b (wf_push [] b Hwf) Hwf Hc Hs)
    as (outs & b1 & b2 & E1 & E2 & Hc' & Hs').
  exists outs, b1, b2. auto.
Qed.

Lemma push_empty_unobservable_witness :
  let b := push [x07; x08]%byte empty in
  wf b /\
  pops [1; 0; 3] (push [] b) = Some ([[x07]; []; [x08]]%byte, empty) /\
  exists outs b1 b2,
    pops [1; 0; 3] (push [] b) = Some (outs, b1) /\
    pops [1; 0; 3] b = Some (outs, b2) /\
    size b1 = size b2 /\ contents b1 = contents b2.
Proof.
  intros b.
  assert (Hwf : wf b) by (apply wf_push, wf_empty).
  split; [exact Hwf|]. split; [vm_compute; reflexivity|].
  apply (push_empty_unobservable b Hwf).
Defined.

(** ** Copying and moving *)

Section CopyMove.

Import RingBufferObj.

Implicit Types (b d : RingBuffer.t) (st : store).

Lemma entry_copy_id e : entry_copy e = e.
Proof. destruct e as [dt o]. unfold entry_copy. cbn. rewrite Nat.sub_0_r. reflexivity. Qed.

Lemma entry_move_id e : entry_move e = e.
Proof. destruct e as [dt o]. unfold entry_move. cbn. rewrite Nat.sub_0_r. reflexivity. Qed.

Lemma copy_ctor_id b : copy_ctor b = b.
Proof.
  destruct b as [r s]. unfold copy_ctor. cbn [ring _size]. f_equal.
  induction r as [|e r IH]; [reflexivity|]. cbn. rewrite entry_copy_id. f_equal. exact IH.
Qed.

Lemma move_ctor_eq b : move_ctor b = (b, empty).
Proof. destruct b. reflexivity. Qed.

Lemma copy_assign_distinct st this other b d :
  st !! other = Some b -> st !! this = Some d -> this <> other ->
  copy_assign this other st = Some (<[this := b]> st).
Proof.
  intros Ho Ht Hne. unfold copy_assign. rewrite decide_False by exact Hne.
  rewrite Ho. cbn -[copy_ctor]. rewrite Ht. cbn -[copy_ctor].
  rewrite copy_ctor_id. destruct b. reflexivity.
Qed.

Lemma move_assign_distinct st this other b d :
  st !! other = Some b -> st !! this = Some d -> this <> other ->
  move_assign this other st = Some (<[this := b]> (<[other := empty]> st)).
Proof.
  intros Ho Ht Hne. unfold move_assign. rewrite decide_False by exact Hne.
  rewrite Ho. cbn. rewrite lookup_insert_ne by congruence. rewrite Ht. cbn.
  destruct b. reflexivity.
Qed.

Lemma assign_self st this :
  move_assign this this st = Some st /\ copy_assign this this st = Some st.
Proof.
  split; [unfold move_assign|unfold copy_assign];
    (destruct (decide (this = this)) as [_|Hne]; [reflexivity|congruence]).
Qed.

(** A call on one object leaves every other object as it is. *)
Lemma push_at_frame st this data st' other :
  push_at this data st = Some st' -> other <> this -> st' !! other = st !! other.
Proof.
  unfold push_at. destruct (st !! this) as [b|]; [|discriminate]. cbn.
  intros [= <-] Hne. apply lookup_insert_ne. congruence.
Qed.

Lemma pop_at_frame st this len res st' other :
  pop_at this len st = Some (res, st') -> other <> this -> st' !! other = st !! other.
Proof.
  unfold pop_at. destruct (st !! this) as [b|]; [|discriminate]. cbn.
  destruct (pop len b) as [[r b']|]; [|discriminate]. cbn.
  intros [= _ <-] Hne. apply lookup_insert_ne. congruence.
Qed.

End CopyMove.

(** C7, as the code has it: the copy of a buffer, by construction at a
    new address or by assignment to another buffer, has the segments,
    cursors and [size()] of the source, so [pop] returns the same bytes
    from both, and the source is unchanged; a later [push] or [pop] on one
    object leaves every other object as it is; move construction, and move
    assignment to another buffer, give the destination the segments,
    cursors and [size()] of the source and leave the source empty with
    [size()] 0; assigning a buffer to itself, by copy or by move, changes
    nothing. *)
Theorem value_semantics (st : RingBufferObj.store) (src dst : nat)
    (b d : RingBuffer.t) :
  st !! src = Some b -> st !! dst = Some d -> dst <> src ->
  (exists st',
     RingBufferObj.copy_assign dst src st = Some st' /\
     st' !! dst = Some b /\ st' !! src = Some b /\
     forall len, fst <$> RingBufferObj.pop_at dst len st'
               = fst <$> RingBufferObj.pop_at src len st') /\
  (forall new, st !! new = None -> exists st',
     RingBufferObj.copy_construct new src st = Some st' /\
     st' !! new = Some b /\ st' !! src = Some b /\
     forall len, fst <$> RingBufferObj.pop_at new len st'
               = fst <$> RingBufferObj.pop_at src len st') /\
  (forall (st0 : RingBufferObj.store) l l' data st1, l <> l' ->
     RingBufferObj.push_at l data st0 = Some st1 -> st1 !! l' = st0 !! l') /\
  (forall (st0 : RingBufferObj.store) l l' len res st1, l <> l' ->
     RingBufferObj.pop_at l len st0 = Some (res, st1) -> st1 !! l' = st0 !! l') /\
  (forall new, st !! new = None -> exists st',
     RingBufferObj.move_construct new src st = Some st' /\
     st' !! new = Some b /\ st' !! src = Some empty) /\
  (exists st',
     RingBufferObj.move_assign dst src st = Some st' /\
     st' !! dst = Some b /\ st' !! src = Some empty) /\
  ring empty = [] /\ word.unsigned (size empty) = 0%Z /\
  RingBufferObj.move_assign src src st = Some st /\
  RingBufferObj.copy_assign src src st = Some st.
Proof.
  intros Hs Hd Hne.
  assert (Hca := copy_assign_distinct st dst src b d Hs Hd Hne).
  assert (Hma := move_assign_distinct st dst src b d Hs Hd Hne).
  assert (Hfresh : forall new, st !! new = None -> new <> src) by (intros new Hn ->; congruence).
  assert (Hcc : forall new,
            RingBufferObj.copy_construct new src st = Some (<[new := b]> st)).
  { intros new. unfold RingBufferObj.copy_construct. rewrite Hs.
    cbn -[RingBufferObj.copy_ctor]. rewrite copy_ctor_id. reflexivity. }
  assert (Hpop : forall (st' : RingBufferObj.store) l,
            st' !! l = Some b -> st' !! src = Some b -> forall len,
            fst <$> RingBufferObj.pop_at l len st'
              = fst <$> RingBufferObj.pop_at src len st').
  { intros st' l Hl Hsrc len. unfold RingBufferObj.pop_at. rewrite Hl, Hsrc. cbn.
    destruct (pop len b) as [[res b']|]; reflexivity. }
  split; [|split; [|split; [|split; [|split; [|split]]]]].
  - assert (Hsrc : <[dst := b]> st !! src = Some b)
      by (rewrite lookup_insert_ne by exact Hne; exact Hs).
    exists (<[dst := b]> st). split; [exact Hca|].
    split; [apply lookup_insert_eq|]. split; [exact Hsrc|].
    apply Hpop; [apply lookup_insert_eq|exact Hsrc].
  - intros new Hn.
    assert (Hsrc : <[new := b]> st !! src = Some b)
      by (rewrite lookup_insert_ne by (apply Hfresh, Hn); exact Hs).
    exists (<[new := b]> st). split; [apply Hcc|].
    split; [apply lookup_insert_eq|]. split; [exact Hsrc|].
    apply Hpop; [apply lookup_insert_eq|exact Hsrc].
  - intros st0 l l' data st1 Hl E. eapply push_at_frame; eauto.
  - intros st0 l l' len res st1 Hl E. eapply pop_at_frame; eauto.
  - intros new Hn. unfold RingBufferObj.move_construct. rewrite Hs.
    cbn -[RingBufferObj.move_ctor]. rewrite move_ctor_eq. eexists.
    split; [reflexivity|]. split; [apply lookup_insert_eq|].
    rewrite lookup_insert_ne by (apply Hfresh, Hn). apply lookup_insert_eq.
  - eexists. split; [exact Hma|]. split; [apply lookup_insert_eq|].
    rewrite lookup_insert_ne by exact Hne. apply lookup_insert_eq.
  - split; [reflexivity|]. split; [reflexivity|]. apply assign_self.
Qed.

Lemma value_semantics_witness :
  let b := push [x04; x05]%byte (push [x01]%byte empty) in
  let st : RingBufferObj.store := <[1 := b]> (<[2 := empty]> ∅) in
  st !! 1 = Some b /\ st !! 2 = Some empty /\ 2 <> 1 /\
  exists st',
    RingBufferObj.move_assign 2 1 st = Some st' /\
    st' !! 2 = Some b /\ st' !! 1 = Some empty.
Proof.
  intros b st.
  assert (H1 : st !! 1 = Some b) by reflexivity.
  assert (H2 : st !! 2 = Some empty) by reflexivity.
  assert (Hne : 2 <> 1) by lia.
  split; [exact H1|]. split; [exact H2|]. split; [exact Hne|].
  apply (value_semantics st 1 2 b empty H1 H2 Hne).
Defined.

(** C7, as stated, fails for move assignment of a buffer to itself: the
    test [this != &other] skips the body, and the source keeps its one
    segment and its [size()] of 1. *)
Lemma self_move_assign_keeps_source :
  let b := push [x07]%byte empty in
  let st : RingBufferObj.store := <[1 := b]> ∅ in
  ~ RingBufferObj.move_leaves_source_empty 1 1 st.
Proof.
  intros b st (st' & s & E & Hl & Hr & Hsz).
  change (RingBufferObj.move_assign 1 1 st) with (Some st) in E.
  injection E as <-. change (st !! 1) with (Some b) in Hl. injection Hl as <-.
  discriminate Hr.
Qed.

(** ** close() and the destructor of the pool *)

Section Closing.

Implicit Types (w : World) (c : Conn) (this l : conn_t).

Lemma Conn_close_spec this w c :
  conns w !! this = Some c ->
  exists c',
    Conn_close this w =
      {| conns := <[this := c']> (conns w); cpool := cpool w;
         trace := trace w ++ [Sys_close (fd c)] |} /\
    closed c' /\ self_ref c' = self_ref c /\
    send_buffer c' = send_buffer c /\ recv_buffer c' = recv_buffer c.
Proof.
  intros H. unfold Conn_close. rewrite H. eexists. split; [reflexivity|].
  unfold closed. cbn. auto 10.
Qed.

Lemma Conn_close_absent this w : conns w !! this = None -> Conn_close this w = w.
Proof. intros H. unfold Conn_close. rewrite H. reflexivity. Qed.

(** One call of [close()]: one more system call in the trace, the pool as
    it was, the connection closed and every other connection as it was; a
    connection that was closed stays closed. *)
Lemma Conn_close_step this w :
  exists new,
    trace (Conn_close this w) = trace w ++ new /\
    Forall is_sys_close new /\
    cpool (Conn_close this w) = cpool w /\
    forall l c, conns w !! l = Some c ->
      exists c', conns (Conn_close this w) !! l = Some c' /\
        (closed c -> closed c') /\
        (l = this -> closed c' /\ Sys_close (fd c) ∈ new).
Proof.
  destruct (conns w !! this) as [c0|] eqn:E.
  - destruct (Conn_close_spec this w c0 E) as (c0' & -> & Hcl & _).
    exists [Sys_close (fd c0)]. cbn [trace cpool conns].
    split; [reflexivity|]. split; [repeat constructor|]. split; [reflexivity|].
    intros l c Hl. destruct (decide (l = this)) as [->|Hne].
    + rewrite lookup_insert_eq. exists c0'. rewrite E in Hl. injection Hl as <-.
      split; [reflexivity|]. split; [auto|]. intros _. split; [exact Hcl|].
      apply list_elem_of_singleton. reflexivity.
    + rewrite lookup_insert_ne by congruence. exists c. split; [exact Hl|].
      split; [auto|]. intros ->. congruence.
  - rewrite (Conn_close_absent this w E). exists []. rewrite app_nil_r.
    split; [reflexivity|]. split; [constructor|]. split; [reflexivity|].
    intros l c Hl. exists c. split; [exact Hl|]. split; [auto|].
    intros ->. congruence.
Qed.

(** The loop of the destructor runs the body of [Conn] when no entry of
    the registry is a connection of a class that overrides [close()]. *)
Lemma dtor_loop_base (virtual_close : conn_t -> World -> World)
    (its : list (Z * conn_t)) :
  Forall (fun it => close_not_overridden virtual_close it.2) its ->
  forall w, dtor_loop virtual_close its w = dtor_loop Conn_close its w.
Proof.
  induction 1 as [|[h conn] its Hc _ IH]; intros w; [reflexivity|].
  cbn [dtor_loop foldl snd] in *. rewrite (Hc w). apply IH.
Qed.

Lemma registry_not_overridden (virtual_close : conn_t -> World -> World)
    (w : World) (its : list (Z * conn_t)) :
  its ≡ₚ map_to_list (pool (cpool w)) ->
  (forall h l, pool (cpool w) !! h = Some l ->
     close_not_overridden virtual_close l) ->
  Forall (fun it => close_not_overridden virtual_close it.2) its.
Proof.
  intros Hperm Hbase. apply Forall_forall. intros [h l] Hin. cbn [snd].
  rewrite Hperm in Hin. apply elem_of_map_to_list in Hin. eapply Hbase, Hin.
Qed.

Lemma dtor_loop_spec (its : list (Z * conn_t)) :
  forall w, exists new,
    trace (dtor_loop Conn_close its w) = trace w ++ new /\
    Forall is_sys_close new /\
    cpool (dtor_loop Conn_close its w) = cpool w /\
    forall l c, conns w !! l = Some c ->
      exists c', conns (dtor_loop Conn_close its w) !! l = Some c' /\
        (closed c -> closed c') /\
        (l ∈ its.*2 -> closed c' /\ Sys_close (fd c) ∈ new).
Proof.
  induction its as [|[h conn] its IH]; intros w.
  - exists []. cbn. rewrite app_nil_r. repeat split; auto.
    intros l c Hl. exists c. split; [exact Hl|]. split; [auto|].
    intros Hin. apply elem_of_nil in Hin. contradiction.
  - cbn [dtor_loop foldl snd]. fold (dtor_loop Conn_close its (Conn_close conn w)).
    destruct (Conn_close_step conn w) as (new1 & Ht1 & Hf1 & Hp1 & Hc1).
    destruct (IH (Conn_close conn w)) as (new2 & Ht2 & Hf2 & Hp2 & Hc2).
    exists (new1 ++ new2). rewrite Ht2, Ht1, Hp2, Hp1, <- app_assoc.
    split; [reflexivity|]. split; [apply Forall_app; auto|]. split; [reflexivity|].
    intros l c Hl. destruct (Hc1 l c Hl) as (c1 & Hl1 & Hk1 & Hthis).
    destruct (Hc2 l c1 Hl1) as (c2 & Hl2 & Hk2 & Hin2).
    exists c2. split; [exact Hl2|]. split; [auto|].
    intros Hin. cbn in Hin. apply elem_of_cons in Hin.
    destruct (decide (l = conn)) as [->|Hne].
    + destruct (Hthis eq_refl) as [Hcl Hev]. split; [auto|].
      apply elem_of_app. left. exact Hev.
    + destruct Hin as [->|Hin]; [congruence|].
      destruct (Hin2 Hin) as [Hcl Hev]. split; [exact Hcl|].
      apply elem_of_app. right.
      assert (c1 = c) as ->; [|exact Hev].
      clear - Hl Hl1 Hne. unfold Conn_close in Hl1.
      destruct (conns w !! conn); [|congruence].
      cbn in Hl1. rewrite lookup_insert_ne in Hl1 by congruence. congruence.
Qed.

End Closing.




(** ** terminate() *)

Section Terminating.

Implicit Types (w : World) (c : Conn) (this : conn_t).

(** A connection that released its self-reference: the call changes
    nothing. *)
Lemma terminate_released this w c :
  conns w !! this = Some c -> self_ref c = None -> terminate this w = w.
Proof. intros H Hs. unfold terminate. rewrite H, Hs. reflexivity. Qed.

(** The call on a connection that still holds its self-reference. *)
Lemma terminate_first this w c r :
  conns w !! this = Some c -> self_ref c = Some r ->
  exists c',
    terminate this w =
      {| conns := <[this := c']> (conns w);
         cpool := with_registry (delete (fd c) (pool (cpool w))) (cpool w);
         trace := trace w ++ [Sys_close (fd c); Hook_on_teardown this] |} /\
    closed c' /\ self_ref c' = None /\
    send_buffer c' = send_buffer c /\ recv_buffer c' = recv_buffer c.
Proof.
  intros H Hs. unfold terminate. rewrite H, Hs.
  unfold Conn_close. rewrite H.
  cbn [emit set_conn set_pool conns cpool trace].
  rewrite lookup_insert_eq. eexists. split.
  - unfold set_conn, with_self_ref. cbn. rewrite insert_insert_eq, <- app_assoc.
    reflexivity.
  - unfold closed. cbn. auto 10.
Qed.

Lemma teardowns_app this tr1 tr2 :
  teardowns this (tr1 ++ tr2) = teardowns this tr1 + teardowns this tr2.
Proof. unfold teardowns. rewrite List.filter_app. apply length_app. Qed.

End Terminating.

(** C3: on a connection that holds its self-reference, as every
    connection does from its construction on, the first [terminate()]
    clears the read, write and connect events, closes the socket handle
    and sets it to -1, calls the teardown hook once, erases the entry of
    the handle from the registry and releases the self-reference; a
    further call returns the world as it is, so after any number of calls
    the teardown hook was called exactly once. *)
Theorem terminate_idempotent (w : World) (this : conn_t) (c : Conn) :
  conns w !! this = Some c ->
  self_ref c = Some this ->
  let w1 := terminate this w in
  (exists c1,
     conns w1 !! this = Some c1 /\
     ev_read c1 = Event_none /\ ev_write c1 = Event_none /\
     ev_connect c1 = Event_none /\ fd c1 = (-1)%Z /\
     self_ref c1 = None) /\
  trace w1 = trace w ++ [Sys_close (fd c); Hook_on_teardown this] /\
  pool (cpool w1) = delete (fd c) (pool (cpool w)) /\
  pool (cpool w1) !! fd c = None /\
  terminate this w1 = w1 /\
  forall n,
    Nat.iter (S n) (terminate this) w = w1 /\
    teardowns this (trace (Nat.iter (S n) (terminate this) w))
      = teardowns this (trace w) + 1.
Proof.
  intros H Hs w1.
  destruct (terminate_first this w c this H Hs) as (c1 & E & (H1 & H2 & H3 & H4) & Hr & _).
  assert (Hl : conns w1 !! this = Some c1).
  { unfold w1. rewrite E. cbn. apply lookup_insert_eq. }
  assert (Hidem : terminate this w1 = w1) by (eapply terminate_released; eauto).
  split; [exists c1; auto 10|].
  split; [unfold w1; rewrite E; reflexivity|].
  split; [unfold w1; rewrite E; reflexivity|].
  split; [unfold w1; rewrite E; cbn; apply lookup_delete_eq|].
  split; [exact Hidem|].
  intros n.
  assert (Hiter : Nat.iter (S n) (terminate this) w = w1).
  { induction n as [|n IH]; [reflexivity|].
    change (terminate this (Nat.iter (S n) (terminate this) w) = w1).
    rewrite IH. exact Hidem. }
  split; [exact Hiter|]. rewrite Hiter. unfold w1. rewrite E. cbn [trace].
  rewrite teardowns_app. f_equal. unfold teardowns. cbn.
  rewrite Nat.eqb_refl. reflexivity.
Qed.

Lemma terminate_idempotent_witness :
  let c := Conn_ctor 7
    {| seg_buff_size := word.of_Z 4096; self_ref := None; fd := 3; mode := ACTIVE;
       addr := mk_NetAddr 0 0; send_buffer := empty; recv_buffer := empty;
       ev_read := Event_none; ev_write := Event_none;
       ev_connect := Event_none; ready_send := false |} in
  let p := with_registry {[ 3%Z := 7 ]} (ctor 0 Args0 (-1)) in
  let w := {| conns := {[ 7 := c ]}; cpool := p; trace := [] |} in
  conns w !! 7 = Some c /\ self_ref c = Some 7 /\
  trace (terminate 7 (terminate 7 w)) = [Sys_close 3; Hook_on_teardown 7] /\
  teardowns 7 (trace (Nat.iter 2 (terminate 7) w)) = 1.
Proof.
  intros c p w.
  assert (H : conns w !! 7 = Some c) by reflexivity.
  assert (Hs : self_ref c = Some 7) by reflexivity.
  split; [exact H|]. split; [exact Hs|]. split; [reflexivity|].
  destruct (terminate_idempotent w 7 c H Hs) as (_ & _ & _ & _ & _ & Hn).
  exact (proj2 (Hn 1)).
Defined.

(** ** write() *)

Section Writing.

Variable send_data_body : conn_t -> Z -> Z -> World -> World.

Lemma send_data_calls_emit e w :
  send_data_calls (trace (emit e w))
    = send_data_calls (trace w) + (if is_send_data e then 1 else 0).
Proof.
  unfold send_data_calls, emit. cbn [trace].
  rewrite List.filter_app, length_app. cbn. destruct (is_send_data e); reflexivity.
Qed.

(** C4: [write(bytes)] appends the bytes to the send buffer as a new
    segment behind the queued ones and adds their number to its [size()];
    if [ready_send] is set it then calls [send_data(fd, EV_WRITE)], once, on
    the connection with the bytes queued; if [ready_send] is not set it
    calls nothing, and the world after the call is the world before it
    with the bytes queued in the send buffer. *)
Theorem write_queues_then_sends_if_ready (w : World) (this : conn_t) (c : Conn)
    (data : bytearray_t) :
  conns w !! this = Some c ->
  let c' := with_send_buffer (push data (send_buffer c)) c in
  let queued := set_conn this c' w in
  contents (send_buffer c') = contents (send_buffer c) ++ data /\
  size (send_buffer c') = word.add (size (send_buffer c)) (vec_size data) /\
  recv_buffer c' = recv_buffer c /\ fd c' = fd c /\ ready_send c' = ready_send c /\
  conns queued !! this = Some c' /\ trace queued = trace w /\
  (ready_send c = true ->
     let called := emit (Call_send_data this (fd c) EV_WRITE) queued in
     write send_data_body this data w = send_data_body this (fd c) EV_WRITE called /\
     send_data_calls (trace called) = send_data_calls (trace w) + 1) /\
  (ready_send c = false ->
     write send_data_body this data w = queued /\
     send_data_calls (trace (write send_data_body this data w))
       = send_data_calls (trace w)).
Proof.
  intros H c' queued.
  split; [apply contents_push|]. split; [reflexivity|].
  do 3 (split; [reflexivity|]).
  split; [apply lookup_insert_eq|]. split; [reflexivity|].
  split; intros Hr.
  - intros called. split.
    + unfold write. rewrite H. cbn [with_send_buffer ready_send fd]. rewrite Hr.
      reflexivity.
    + unfold called. rewrite send_data_calls_emit. reflexivity.
  - assert (E : write send_data_body this data w = queued).
    { unfold write. rewrite H. cbn [with_send_buffer ready_send fd]. rewrite Hr.
      reflexivity. }
    split; [exact E|]. rewrite E. reflexivity.
Qed.

End Writing.

Lemma write_queues_then_sends_if_ready_witness :
  let c := Conn_ctor 7
    {| seg_buff_size := word.of_Z 4096; self_ref := None; fd := 3; mode := ACTIVE;
       addr := mk_NetAddr 0 0; send_buffer := empty; recv_buffer := empty;
       ev_read := Event_none; ev_write := Event_none;
       ev_connect := Event_none; ready_send := false |} in
  let w := {| conns := {[ 7 := c ]}; cpool := ctor 0 Args0 (-1); trace := [] |} in
  let body := fun (_ : conn_t) (_ _ : Z) (w : World) => w in
  conns w !! 7 = Some c /\ ready_send c = false /\
  write body 7 [x41]%byte w
    = set_conn 7 (with_send_buffer (push [x41]%byte (send_buffer c)) c) w /\
  send_data_calls (trace (write body 7 [x41]%byte w)) = 0.
Proof.
  intros c w body.
  assert (H : conns w !! 7 = Some c) by reflexivity.
  assert (Hr : ready_send c = false) by reflexivity.
  split; [exact H|]. split; [exact Hr|].
  destruct (write_queues_then_sends_if_ready body w 7 c [x41]%byte H)
    as (_ & _ & _ & _ & _ & _ & _ & _ & Hno).
  exact (Hno Hr).
Defined.

(** ** listen() *)

(** C8: when the operating system refuses the socket, the bind or the
    listen, [listen(address)] returns a [ConnPoolError] to its caller, and
    the pool after the call is the pool before it, registry and
    configuration, as are the connections; when all three succeed it
    returns normally with the pool listening on the new socket. *)
Theorem listen_reports_setup_error (os : os_listen) (a : NetAddr) (w : World) :
  (os_socket os = None \/ os_bind_ok os = false \/ os_listen_ok os = false ->
   exists e : ConnPoolError,
     (listen os a w).1 = inl e /\
     cpool (listen os a w).2 = cpool w /\
     pool (cpool (listen os a w).2) = pool (cpool w) /\
     conns (listen os a w).2 = conns w) /\
  (forall lfd, os_socket os = Some lfd -> os_bind_ok os = true ->
   os_listen_ok os = true ->
     (listen os a w).1 = inr tt /\
     listen_fd (cpool (listen os a w).2) = lfd /\
     ev_listen (cpool (listen os a w).2) = Event_registered lfd EV_READ /\
     pool (cpool (listen os a w).2) = pool (cpool w) /\
     Sys_listen lfd (max_listen_backlog (cpool w)) true ∈ trace (listen os a w).2).
Proof.
  unfold listen. destruct os as [[lfd|] [|] [|]]; cbn; split;
    try (intros [H|[H|H]]; try discriminate H; eexists; repeat split; reflexivity);
    try (intros lfd' H1 H2 H3; discriminate);
    try (intros [H|[H|H]]; discriminate H).
  intros lfd' [= <-] _ _. repeat split.
  apply elem_of_app. right. apply list_elem_of_singleton. reflexivity.
Qed.

Lemma listen_reports_setup_error_witness :
  let os := {| os_socket := Some 5%Z; os_bind_ok := false; os_listen_ok := true |} in
  let w := {| conns := ∅; cpool := ctor 0 Args0 (-1); trace := [] |} in
  (os_socket os = None \/ os_bind_ok os = false \/ os_listen_ok os = false) /\
  (listen os (mk_NetAddr 0 8080) w).1 = inl (mk_ConnPoolError Setup_bind) /\
  exists e : ConnPoolError,
    (listen os (mk_NetAddr 0 8080) w).1 = inl e /\
    cpool (listen os (mk_NetAddr 0 8080) w).2 = cpool w.
Proof.
  intros os w.
  assert (H : os_socket os = None \/ os_bind_ok os = false \/ os_listen_ok os = false)
    by (right; left; reflexivity).
  split; [exact H|]. split; [reflexivity|].
  destruct (proj1 (listen_reports_setup_error os (mk_NetAddr 0 8080) w) H)
    as (e & H1 & H2 & _).
  exists e. auto.
Defined.

(** * Further properties of the buffer *)

Add Ring size_t_ring : (word.ring_theory (word := Naive.word64)).

Section MoreOfPop.

Implicit Types (b : RingBuffer.t) (l : list buffer_entry_t).

Lemma total_of_app l1 l2 : total_of (l1 ++ l2) = total_of l1 + total_of l2.
Proof. rewrite <- !length_contents_of, contents_of_app. apply length_app. Qed.

(** Asked for more than the segments hold, the loop goes past every
    segment, the empty ones included. *)
Lemma pop_loop_overask l :
  Forall entry_wf l ->
  forall fuel len res, length l + 2 <= fuel -> total_of l < len ->
    pop_loop fuel l len res = Some ([], res ++ contents_of l).
Proof.
  induction 1 as [|e tl He Htl IH]; intros fuel len res Hfuel Hlen.
  - destruct fuel as [|fuel]; [lia|]. cbn [pop_loop].
    change (contents_of []) with (@nil byte). rewrite app_nil_r.
    destruct (Nat.eqb len 0); reflexivity.
  - destruct fuel as [|fuel]; [cbn in Hfuel; lia|]. cbn [length] in Hfuel.
    cbn [total_of foldr] in Hlen. fold (total_of tl) in Hlen.
    cbn [pop_loop]. destruct (Nat.eqb_spec len 0) as [->|_]; [lia|].
    cbn zeta. cbn [data offset]. unfold entry_wf in He.
    rewrite Nat.min_l by lia.
    replace (Nat.eqb (offset e + entry_length e) (length (data e))) with true
      by (symmetry; apply Nat.eqb_eq; unfold entry_length; lia).
    rewrite IH by lia. rewrite contents_of_cons, app_assoc.
    rewrite take_ge by (rewrite length_unconsumed; lia). reflexivity.
Qed.

End MoreOfPop.

(** X1: [pop] on a buffer that holds no unconsumed byte returns the empty
    byte sequence whatever length is asked for, and leaves [size()] as it
    is; on a buffer without segments, as a new or a cleared one, it leaves
    the buffer as it is. *)
Theorem pop_nothing_left (b : RingBuffer.t) (len : nat) :
  wf b -> total b = 0 ->
  (exists b', pop len b = Some ([], b') /\ size b' = size b /\ total b' = 0) /\
  (ring b = [] -> pop len b = Some ([], b)) /\
  pop len (clear b) = Some ([], clear b).
Proof.
  intros Hwf Ht.
  assert (Hnil : forall b0, ring b0 = [] -> pop len b0 = Some ([], b0)).
  { intros [r s] Hr. cbn in Hr. subst r. unfold pop, pop_fuel. cbn [pop_loop ring length].
    assert (E : forall x : size_t, word.sub x (vec_size (@nil byte)) = x)
      by (intros x; apply word.sub_0_r).
    destruct (Nat.eqb len 0); cbn [_size]; rewrite E; reflexivity. }
  split; [|split; [apply Hnil|apply Hnil; reflexivity]].
  destruct (pop_spec b len Hwf) as (b' & k & m & E & Hc & _ & Hs & _).
  assert (Hcn : contents b = []).
  { apply length_zero_iff_nil. rewrite length_contents. exact Ht. }
  rewrite Hcn, take_nil in E. rewrite Hcn, take_nil in Hs. rewrite Hcn, drop_nil in Hc.
  exists b'. split; [exact E|]. split.
  - unfold size. rewrite Hs. apply word.sub_0_r.
  - rewrite <- length_contents, Hc. reflexivity.
Qed.

Lemma pop_nothing_left_witness :
  let b := push [] empty in
  wf b /\ total b = 0 /\
  exists b', pop 3 b = Some ([], b') /\ size b' = size b /\ total b' = 0.
Proof.
  intros b.
  assert (Hwf : wf b) by (apply wf_push, wf_empty).
  assert (Ht : total b = 0) by reflexivity.
  split; [exact Hwf|]. split; [exact Ht|].
  exact (proj1 (pop_nothing_left b 3 Hwf Ht)).
Defined.

(** X2: two [pop] calls in a row return, together, what one [pop] of the
    sum of their lengths returns, and leave the same content and the same
    [size()]. *)
Theorem pop_pop_is_pop_sum (b : RingBuffer.t) (n1 n2 : nat) :
  wf b ->
  exists r1 b1 r2 b2 r b',
    pop n1 b = Some (r1, b1) /\ pop n2 b1 = Some (r2, b2) /\
    pop (n1 + n2) b = Some (r, b') /\
    r = r1 ++ r2 /\ contents b' = contents b2 /\ size b' = size b2.
Proof.
  intros Hwf.
  destruct (pop_spec b n1 Hwf) as (b1 & k1 & m1 & E1 & Hc1 & Hwf1 & Hs1 & _).
  destruct (pop_spec b1 n2 Hwf1) as (b2 & k2 & m2 & E2 & Hc2 & _ & Hs2 & _).
  destruct (pop_spec b (n1 + n2) Hwf) as (b' & k & m & E & Hc & _ & Hs & _).
  assert (Hr : take (n1 + n2) (contents b)
               = take n1 (contents b) ++ take n2 (contents b1))
    by (rewrite Hc1; symmetry; apply take_take_drop).
  exists (take n1 (contents b)), b1, (take n2 (contents b1)), b2,
    (take (n1 + n2) (contents b)), b'.
  split; [exact E1|]. split; [exact E2|]. split; [exact E|]. split; [exact Hr|].
  split; [rewrite Hc, Hc2, Hc1, drop_drop; reflexivity|].
  unfold size. rewrite Hs, Hs2, Hs1, Hr. unfold vec_size.
  rewrite length_app, Nat2Z.inj_add, word.ring_morph_add. ring.
Qed.

Lemma pop_pop_is_pop_sum_witness :
  let b := push [x04; x05]%byte (push [x01; x02; x03]%byte empty) in
  wf b /\
  exists r1 b1 r2 b2 r b',
    pop 2 b = Some (r1, b1) /\ pop 2 b1 = Some (r2, b2) /\
    pop (2 + 2) b = Some (r, b') /\
    r = r1 ++ r2 /\ contents b' = contents b2 /\ size b' = size b2.
Proof.
  intros b.
  assert (Hwf : wf b) by (do 2 apply wf_push; apply wf_empty).
  split; [exact Hwf|]. exact (pop_pop_is_pop_sum b 2 2 Hwf).
Defined.

(** X3: a [pop] that asks for more bytes than the buffer holds returns
    all of its content and erases every segment, the empty ones too; with
    the counter in step, [size()] is then 0. *)
Theorem pop_more_than_held (b : RingBuffer.t) (len : nat) :
  wf b -> total b < len ->
  exists b',
    pop len b = Some (contents b, b') /\ ring b' = [] /\
    (size_ok b -> word.unsigned (size b') = 0%Z).
Proof.
  intros Hwf Hlen. unfold pop.
  rewrite (pop_loop_overask (ring b) Hwf (pop_fuel b) len [])
    by (unfold pop_fuel; lia || exact Hlen).
  cbn [app]. eexists. split; [reflexivity|]. split; [reflexivity|].
  intros Hok. unfold size. cbn [_size]. rewrite Hok. unfold vec_size.
  fold (contents b). rewrite length_contents, <- word.ring_morph_sub, Z.sub_diag.
  apply word.unsigned_of_Z_0.
Qed.

Lemma pop_more_than_held_witness :
  let b := push [] (push [x01; x02]%byte empty) in
  wf b /\ total b < 3 /\
  exists b', pop 3 b = Some (contents b, b') /\ ring b' = [].
Proof.
  intros b.
  assert (Hwf : wf b) by (do 2 apply wf_push; apply wf_empty).
  assert (Hlen : total b < 3) by (vm_compute; lia).
  split; [exact Hwf|]. split; [exact Hlen|].
  destruct (pop_more_than_held b 3 Hwf Hlen) as (b' & E & Hr & _).
  exists b'. auto.
Defined.

(** ** Interleaved pushes and pops *)

Section Interleaved.

Implicit Types (b : RingBuffer.t) (ops : list op).

Lemma pushed_push data ops : pushed (Push data :: ops) = data :: pushed ops.
Proof. reflexivity. Qed.

Lemma pushed_pop len ops : pushed (Pop len :: ops) = pushed ops.
Proof. reflexivity. Qed.

Lemma run_spec ops :
  forall b, wf b -> size_ok b ->
  exists outs b',
    run ops b = Some (outs, b') /\ wf b' /\ size_ok b' /\
    contents b ++ concat (pushed ops) = concat outs ++ contents b'.
Proof.
  induction ops as [|[data|len] ops IH]; intros b Hwf Hok.
  - exists [], b. cbn. rewrite app_nil_r. auto.
  - destruct (IH (push data b) (wf_push data b Hwf) (size_ok_push data b Hok))
      as (outs & b' & E & Hwf' & Hok' & Hc).
    exists outs, b'. cbn [run]. rewrite pushed_push.
    split; [exact E|]. split; [exact Hwf'|]. split; [exact Hok'|].
    rewrite contents_push in Hc. cbn [concat]. rewrite app_assoc. exact Hc.
  - destruct (pop_spec b len Hwf) as (b1 & k & m & E1 & Hc1 & Hwf1 & _).
    pose proof (size_ok_pop len b _ b1 Hwf Hok E1) as Hok1.
    destruct (IH b1 Hwf1 Hok1) as (outs & b' & E & Hwf' & Hok' & Hc).
    exists (take len (contents b) :: outs), b'. cbn [run]. rewrite pushed_pop.
    rewrite E1. cbn. rewrite E. cbn.
    split; [reflexivity|]. split; [exact Hwf'|]. split; [exact Hok'|].
    rewrite <- app_assoc, <- Hc, Hc1, app_assoc, take_drop. reflexivity.
Qed.

End Interleaved.

(** X4: however [push] and [pop] calls are interleaved on a buffer that
    starts empty, every call returns, the bytes popped so far are, in
    order, the first of the bytes pushed so far, the bytes still in the
    buffer are the rest, and [size()] is their number modulo 2^64. *)
Theorem interleaved_fifo (ops : list op) :
  exists outs b,
    run ops empty = Some (outs, b) /\
    concat (pushed ops) = concat outs ++ contents b /\
    word.unsigned (size b) = (Z.of_nat (length (contents b)) mod 2 ^ 64)%Z.
Proof.
  destruct (run_spec ops empty wf_empty size_ok_empty) as (outs & b & E & _ & Hok & Hc).
  exists outs, b. split; [exact E|]. split; [exact Hc|].
  rewrite length_contents. apply size_ok_unsigned, Hok.
Qed.

(** ** Segments are evicted as soon as they are consumed *)

Section Eviction.

Implicit Types (b : RingBuffer.t).

Lemma entry_live_wf e : entry_live e -> entry_wf e.
Proof. unfold entry_live, entry_wf. lia. Qed.

Lemma live_pop len b res b' :
  Forall entry_live (ring b) -> pop len b = Some (res, b') ->
  Forall entry_live (ring b').
Proof.
  intros Hlive Hpop.
  assert (Hwf : wf b) by (eapply Forall_impl; [exact Hlive|apply entry_live_wf]).
  destruct (pop_spec b len Hwf) as (b1 & k & m & E & _ & _ & _ & _ & Hring & Hm).
  rewrite E in Hpop. injection Hpop as _ <-. rewrite Hring.
  pose proof (Forall_drop _ k _ Hlive) as Hd.
  destruct Hm as [->|(e & He & Hlt)]; [rewrite advance_front_0; exact Hd|].
  destruct (drop k (ring b)) as [|e0 tl]; [constructor|].
  cbn in He. injection He as ->. cbn [advance_front].
  apply Forall_cons in Hd. destruct Hd as [_ Htl].
  constructor; [|exact Htl]. unfold entry_live, entry_length in *. cbn. lia.
Qed.

End Eviction.

(** X5: a buffer that is only ever pushed non-empty byte sequences never
    stores a consumed segment: after any calls of [push], [pop] and
    [clear], every segment of the ring has its cursor before the end of its
    data, so the front segment always has a byte to give. *)
Theorem no_consumed_segment_stored (b : RingBuffer.t) :
  reachable_ne b ->
  Forall entry_live (ring b) /\
  (ring b = [] <-> total b = 0).
Proof.
  intros H.
  assert (Hlive : Forall entry_live (ring b)).
  { induction H as [|data b Hd _ IH|len b res b' _ IH Hpop|b _ _].
    - constructor.
    - unfold push. cbn [ring]. apply Forall_app. split; [exact IH|].
      repeat constructor. unfold entry_live. cbn.
      destruct data; [congruence|cbn; lia].
    - eapply live_pop; eauto.
    - constructor. }
  split; [exact Hlive|]. unfold total. split; [intros ->; reflexivity|].
  destruct (ring b) as [|e tl]; [reflexivity|].
  apply Forall_cons in Hlive. destruct Hlive as [He _].
  unfold entry_live in He. cbn [total_of foldr]. unfold entry_length. lia.
Qed.

Lemma no_consumed_segment_stored_witness :
  exists b,
    pop 3 (push [x03; x04]%byte (push [x01; x02]%byte empty)) = Some ([x01; x02; x03]%byte, b) /\
    reachable_ne b /\ Forall entry_live (ring b) /\ length (ring b) = 1.
Proof.
  eexists. split; [vm_compute; reflexivity|].
  match goal with |- reachable_ne ?b0 /\ _ =>
    assert (R : reachable_ne b0)
      by (eapply (reach_ne_pop 3 (push [x03; x04]%byte (push [x01; x02]%byte empty)));
          [apply reach_ne_push; [discriminate|];
           apply reach_ne_push; [discriminate|]; apply reach_ne_empty
          |vm_compute; reflexivity])
  end.
  split; [exact R|]. split; [|reflexivity].
  exact (proj1 (no_consumed_segment_stored _ R)).
Defined.

(** * Further properties of connections and of the pool *)

Section QueuedWrites.

Variable send_data_body : conn_t -> Z -> Z -> World -> World.

Implicit Types (w : World) (c : Conn) (this : conn_t).

Lemma write_not_ready this data w c :
  conns w !! this = Some c -> ready_send c = false ->
  write send_data_body this data w
    = set_conn this (with_send_buffer (push data (send_buffer c)) c) w.
Proof.
  intros H Hr. unfold write. rewrite H. cbn [with_send_buffer ready_send fd].
  rewrite Hr. reflexivity.
Qed.

(** X6: on a connection that is not ready to send, a sequence of
    [write] calls queues the bytes in the send buffer in the order of the
    calls, behind what was queued, and counts them in its [size()]; it calls
    nothing, and leaves the receive buffer, the flag, the other
    connections and the pool as they are. *)
Theorem writes_queue_in_order (ds : list bytearray_t) :
  forall w this c,
  conns w !! this = Some c -> ready_send c = false ->
  let w' := foldl (fun w d => write send_data_body this d w) w ds in
  exists c',
    conns w' !! this = Some c' /\
    contents (send_buffer c') = contents (send_buffer c) ++ concat ds /\
    size (send_buffer c')
      = word.add (size (send_buffer c)) (word.of_Z (Z.of_nat (length (concat ds)))) /\
    recv_buffer c' = recv_buffer c /\ ready_send c' = false /\ fd c' = fd c /\
    trace w' = trace w /\ cpool w' = cpool w /\
    forall l, l <> this -> conns w' !! l = conns w !! l.
Proof.
  induction ds as [|d ds IH]; intros w this c H Hr w'.
  - exists c. subst w'. cbn [foldl concat length Z.of_nat]. rewrite app_nil_r.
    split; [exact H|]. split; [reflexivity|].
    split; [symmetry; apply word.add_0_r|]. split; [reflexivity|].
    split; [exact Hr|]. auto.
  - subst w'. cbn [foldl]. rewrite (write_not_ready this d w c H Hr).
    set (c1 := with_send_buffer (push d (send_buffer c)) c).
    destruct (IH (set_conn this c1 w) this c1) as (c' & Hl & Hc & Hs & Hrb & Hrs & Hfd & Ht & Hp & Hf).
    { cbn. apply lookup_insert_eq. }
    { exact Hr. }
    exists c'. split; [exact Hl|]. split.
    { rewrite Hc. subst c1. cbn [send_buffer with_send_buffer].
      rewrite contents_push. cbn [concat]. rewrite app_assoc. reflexivity. }
    split.
    { rewrite Hs. subst c1. cbn [send_buffer with_send_buffer concat].
      unfold size, push, vec_size. cbn [_size].
      rewrite length_app, Nat2Z.inj_add, word.ring_morph_add. ring. }
    split; [rewrite Hrb; reflexivity|]. split; [exact Hrs|].
    split; [rewrite Hfd; reflexivity|]. split; [rewrite Ht; reflexivity|].
    split; [rewrite Hp; reflexivity|].
    intros l Hne. rewrite (Hf l Hne). cbn. apply lookup_insert_ne. congruence.
Qed.

End QueuedWrites.

Lemma writes_queue_in_order_witness :
  let c := Conn_ctor 7
    {| seg_buff_size := word.of_Z 4096; self_ref := None; fd := 3; mode := ACTIVE;
       addr := mk_NetAddr 0 0; send_buffer := empty; recv_buffer := empty;
       ev_read := Event_none; ev_write := Event_none;
       ev_connect := Event_none; ready_send := false |} in
  let w := {| conns := {[ 7 := c ]}; cpool := ctor 0 Args0 (-1); trace := [] |} in
  let body := fun (_ : conn_t) (_ _ : Z) (w : World) => w in
  conns w !! 7 = Some c /\ ready_send c = false /\
  exists c',
    conns (foldl (fun w d => write body 7 d w) w [[x41]; [x42; x43]]%byte) !! 7 = Some c' /\
    contents (send_buffer c') = [x41; x42; x43]%byte.
Proof.
  intros c w body.
  assert (H : conns w !! 7 = Some c) by reflexivity.
  assert (Hr : ready_send c = false) by reflexivity.
  split; [exact H|]. split; [exact Hr|].
  destruct (writes_queue_in_order body [[x41]; [x42; x43]]%byte w 7 c H Hr)
    as (c' & Hl & Hc & _).
  exists c'. split; [exact Hl|]. rewrite Hc. reflexivity.
Defined.

(** ** move_send_buffer *)

(** X7: [move_send_buffer(other)] on two different connections gives
    [this] the send buffer of [other], segments, cursors and [size()],
    dropping whatever [this] had queued, and leaves the send buffer of
    [other] empty with [size()] 0; nothing else changes.  Called with the
    connection itself it changes nothing. *)
Theorem move_send_buffer_takes_over (w : World) (this other : conn_t)
    (ct co : Conn) :
  conns w !! this = Some ct -> conns w !! other = Some co ->
  (this <> other ->
     move_send_buffer this other w
       = set_conn this (with_send_buffer (send_buffer co) ct)
           (set_conn other (with_send_buffer empty co) w) /\
     exists ct' co',
       conns (move_send_buffer this other w) !! this = Some ct' /\
       conns (move_send_buffer this other w) !! other = Some co' /\
       send_buffer ct' = send_buffer co /\
       contents (send_buffer co') = [] /\
       word.unsigned (size (send_buffer co')) = 0%Z /\
       recv_buffer ct' = recv_buffer ct /\ recv_buffer co' = recv_buffer co) /\
  (this = other -> move_send_buffer this other w = w).
Proof.
  intros Ht Ho. split.
  - intros Hne.
    assert (E : move_send_buffer this other w
       = set_conn this (with_send_buffer (send_buffer co) ct)
           (set_conn other (with_send_buffer empty co) w)).
    { unfold move_send_buffer. rewrite Ht, Ho, decide_False by exact Hne.
      rewrite move_ctor_eq. cbn [set_conn conns].
      rewrite lookup_insert_ne by congruence. rewrite Ht.
      unfold RingBufferObj.swap. cbn [with_send_buffer send_buffer].
      destruct (send_buffer co). reflexivity. }
    split; [exact E|]. rewrite E. cbn [set_conn conns].
    exists (with_send_buffer (send_buffer co) ct), (with_send_buffer empty co).
    split; [apply lookup_insert_eq|].
    split; [rewrite lookup_insert_ne by congruence; apply lookup_insert_eq|].
    repeat split.
  - intros <-. unfold move_send_buffer. rewrite Ht.
    destruct (decide (this = this)) as [_|Hne]; [reflexivity|congruence].
Qed.

Lemma move_send_buffer_takes_over_witness :
  let init := {| seg_buff_size := word.of_Z 4096; self_ref := None; fd := 3;
       mode := ACTIVE; addr := mk_NetAddr 0 0; send_buffer := empty;
       recv_buffer := empty; ev_read := Event_none; ev_write := Event_none;
       ev_connect := Event_none; ready_send := false |} in
  let c1 := with_send_buffer (push [x01]%byte empty) (Conn_ctor 1 init) in
  let c2 := with_send_buffer (push [x02; x03]%byte empty) (Conn_ctor 2 init) in
  let w := {| conns := <[1 := c1]> {[ 2 := c2 ]}; cpool := ctor 0 Args0 (-1);
              trace := [] |} in
  conns w !! 1 = Some c1 /\ conns w !! 2 = Some c2 /\ 1 <> 2 /\
  move_send_buffer 1 2 w
    = set_conn 1 (with_send_buffer (send_buffer c2) c1)
        (set_conn 2 (with_send_buffer empty c2) w).
Proof.
  intros init c1 c2 w.
  assert (H1 : conns w !! 1 = Some c1) by reflexivity.
  assert (H2 : conns w !! 2 = Some c2) by reflexivity.
  assert (Hne : 1 <> 2) by lia.
  split; [exact H1|]. split; [exact H2|]. split; [exact Hne|].
  exact (proj1 (proj1 (move_send_buffer_takes_over w 1 2 c1 c2 H1 H2) Hne)).
Defined.

(** ** close() once more, and what the destructor leaves alone *)

(** X8: [close()] does not test whether the connection is open: a second
    call passes the handle -1, which the first call stored, to [close(2)],
    and changes the connection no further. *)
Theorem close_twice (w : World) (this : conn_t) (c : Conn) :
  conns w !! this = Some c ->
  Conn_close this (Conn_close this w) = emit (Sys_close (-1)) (Conn_close this w) /\
  trace (Conn_close this (Conn_close this w))
    = trace w ++ [Sys_close (fd c); Sys_close (-1)] /\
  conns (Conn_close this (Conn_close this w)) = conns (Conn_close this w).
Proof.
  intros H.
  assert (E : Conn_close this (Conn_close this w)
              = emit (Sys_close (-1)) (Conn_close this w)).
  { destruct (Conn_close_spec this w c H) as (c1 & -> & (H1 & H2 & H3 & H4) & _).
    unfold Conn_close. cbn [conns]. rewrite lookup_insert_eq.
    unfold emit, set_conn. cbn [conns cpool trace]. rewrite insert_insert_eq, H4.
    destruct c1. cbn in *. subst. reflexivity. }
  split; [exact E|]. rewrite E. split; [|reflexivity].
  unfold Conn_close. rewrite H. cbn [emit set_conn trace]. rewrite <- app_assoc.
  reflexivity.
Qed.

Lemma close_twice_witness :
  let c := Conn_ctor 7
    {| seg_buff_size := word.of_Z 4096; self_ref := None; fd := 3; mode := PASSIVE;
       addr := mk_NetAddr 0 0; send_buffer := empty; recv_buffer := empty;
       ev_read := Event_none; ev_write := Event_none;
       ev_connect := Event_none; ready_send := false |} in
  let w := {| conns := {[ 7 := c ]}; cpool := ctor 0 Args0 (-1); trace := [] |} in
  conns w !! 7 = Some c /\
  trace (Conn_close 7 (Conn_close 7 w)) = [Sys_close 3; Sys_close (-1)].
Proof.
  intros c w.
  assert (H : conns w !! 7 = Some c) by reflexivity.
  split; [exact H|].
  exact (proj1 (proj2 (close_twice w 7 c H))).
Defined.

Section DestructorFrame.

Implicit Types (w : World) (c : Conn) (l : conn_t).

Lemma kept_refl c : kept c c.
Proof. unfold kept. auto 10. Qed.

Lemma kept_trans c1 c2 c3 : kept c1 c2 -> kept c2 c3 -> kept c1 c3.
Proof. unfold kept. intuition congruence. Qed.

Lemma Conn_close_kept this w l c :
  conns w !! l = Some c ->
  exists c', conns (Conn_close this w) !! l = Some c' /\ kept c c' /\
             (l <> this -> c' = c).
Proof.
  intros Hl. unfold Conn_close. destruct (conns w !! this) as [c0|] eqn:E.
  - cbn [emit set_conn conns]. destruct (decide (l = this)) as [->|Hne].
    + rewrite lookup_insert_eq. eexists. split; [reflexivity|].
      rewrite E in Hl. injection Hl as <-. split; [|congruence].
      unfold kept. cbn. auto 10.
    + rewrite lookup_insert_ne by congruence. exists c.
      split; [exact Hl|]. split; [apply kept_refl|reflexivity].
  - exists c. split; [exact Hl|]. split; [apply kept_refl|reflexivity].
Qed.

Lemma Conn_close_trace_live this w :
  is_Some (conns w !! this) ->
  length (trace (Conn_close this w)) = S (length (trace w)).
Proof.
  intros [c H]. unfold Conn_close. rewrite H. cbn [emit set_conn trace].
  rewrite length_app. cbn. lia.
Qed.

Lemma dtor_loop_frame (its : list (Z * conn_t)) :
  forall w,
    (forall l c, conns w !! l = Some c ->
       exists c', conns (dtor_loop Conn_close its w) !! l = Some c' /\ kept c c' /\
                  (l ∉ its.*2 -> c' = c)) /\
    (Forall (fun it => is_Some (conns w !! it.2)) its ->
       length (trace (dtor_loop Conn_close its w)) = length (trace w) + length its).
Proof.
  induction its as [|[h conn] its IH]; intros w.
  - split; [|cbn; intros _; lia].
    intros l c Hl. exists c. split; [exact Hl|]. split; [apply kept_refl|reflexivity].
  - cbn [dtor_loop foldl snd]. fold (dtor_loop Conn_close its (Conn_close conn w)).
    destruct (IH (Conn_close conn w)) as [IHk IHn]. split.
    + intros l c Hl.
      destruct (Conn_close_kept conn w l c Hl) as (c1 & Hl1 & Hk1 & Hsame1).
      destruct (IHk l c1 Hl1) as (c2 & Hl2 & Hk2 & Hsame2).
      exists c2. split; [exact Hl2|]. split; [eapply kept_trans; eauto|].
      intros Hnin. cbn in Hnin. apply not_elem_of_cons in Hnin. destruct Hnin as [Hne Hnin].
      rewrite (Hsame2 Hnin). apply Hsame1. exact Hne.
    + intros Hall. apply Forall_cons in Hall. destruct Hall as [Hc Hrest].
      cbn [snd] in Hc. rewrite IHn.
      * rewrite (Conn_close_trace_live conn w Hc). cbn [length]. lia.
      * eapply Forall_impl; [exact Hrest|]. intros [h' l'] [c' Hl']. cbn [snd] in *.
        destruct (Conn_close_kept conn w l' c' Hl') as (c'' & Hl'' & _).
        eexists. exact Hl''.
Qed.

End DestructorFrame.

(** X9: when no connection of the registry is of a class that overrides
    [close()], the destructor of the pool changes no connection beyond
    what the [close()] of [Conn] changes: every connection keeps its
    self-reference, its send and receive buffers, its mode and address,
    and a connection that the registry does not hold is left exactly as it
    is. *)
Theorem dtor_keeps_the_rest (virtual_close : conn_t -> World -> World)
    (w : World) (its : list (Z * conn_t)) :
  its ≡ₚ map_to_list (pool (cpool w)) ->
  (forall h l, pool (cpool w) !! h = Some l ->
     close_not_overridden virtual_close l) ->
  forall l c, conns w !! l = Some c ->
  exists c',
    conns (dtor_loop virtual_close its w) !! l = Some c' /\
    self_ref c' = self_ref c /\
    send_buffer c' = send_buffer c /\ recv_buffer c' = recv_buffer c /\
    mode c' = mode c /\ addr c' = addr c /\
    ((forall h, pool (cpool w) !! h <> Some l) -> c' = c).
Proof.
  intros Hperm Hbase l c Hl.
  rewrite (dtor_loop_base virtual_close its
             (registry_not_overridden virtual_close w its Hperm Hbase) w).
  destruct (proj1 (dtor_loop_frame its w) l c Hl)
    as (c' & Hl' & (H1 & H2 & H3 & H4 & H5 & _) & Hsame).
  exists c'. do 6 (split; [assumption|]).
  intros Hnone. apply Hsame. intros Hin.
  apply list_elem_of_fmap in Hin. destruct Hin as ([h l0] & Heq & Hin).
  cbn in Heq. subst l0. rewrite Hperm in Hin. apply elem_of_map_to_list in Hin.
  exact (Hnone h Hin).
Qed.

Lemma dtor_keeps_the_rest_witness :
  let init := {| seg_buff_size := word.of_Z 4096; self_ref := None; fd := 3;
       mode := PASSIVE; addr := mk_NetAddr 0 0; send_buffer := empty;
       recv_buffer := empty; ev_read := Event_registered 3 EV_READ;
       ev_write := Event_none; ev_connect := Event_none; ready_send := false |} in
  let c := with_send_buffer (push [x01]%byte empty) (Conn_ctor 7 init) in
  let p := with_registry {[ 3%Z := 7 ]} (ctor 0 Args0 (-1)) in
  let w := {| conns := {[ 7 := c ]}; cpool := p; trace := [] |} in
  [(3%Z, 7)] ≡ₚ map_to_list (pool (cpool w)) /\
  (forall h l, pool (cpool w) !! h = Some l -> close_not_overridden Conn_close l) /\
  conns w !! 7 = Some c /\
  exists c',
    conns (dtor_loop Conn_close [(3%Z, 7)] w) !! 7 = Some c' /\
    self_ref c' = Some 7 /\ contents (send_buffer c') = [x01]%byte.
Proof.
  intros init c p w.
  assert (Hperm : [(3%Z, 7)] ≡ₚ map_to_list (pool (cpool w))).
  { cbn [w cpool p with_registry pool]. rewrite map_to_list_singleton. reflexivity. }
  assert (Hbase : forall h l, pool (cpool w) !! h = Some l ->
                    close_not_overridden Conn_close l)
    by (intros h l _ w'; reflexivity).
  assert (Hl : conns w !! 7 = Some c) by reflexivity.
  split; [exact Hperm|]. split; [exact Hbase|]. split; [exact Hl|].
  destruct (dtor_keeps_the_rest Conn_close w [(3%Z, 7)] Hperm Hbase 7 c Hl)
    as (c' & H1 & H2 & H3 & _).
  exists c'. split; [exact H1|]. split; [rewrite H2; reflexivity|].
  rewrite H3. reflexivity.
Defined.

(** X10: when no connection of the registry is of a class that overrides
    [close()] and every entry of the registry refers to a connection
    object, the destructor of the pool makes exactly one [close(2)] call
    per entry and no other call. *)
Theorem dtor_one_close_per_entry (virtual_close : conn_t -> World -> World)
    (w : World) (its : list (Z * conn_t)) :
  its ≡ₚ map_to_list (pool (cpool w)) ->
  (forall h l, pool (cpool w) !! h = Some l ->
     close_not_overridden virtual_close l) ->
  (forall h l, pool (cpool w) !! h = Some l -> is_Some (conns w !! l)) ->
  exists new,
    trace (dtor_loop virtual_close its w) = trace w ++ new /\
    Forall is_sys_close new /\
    length new = base.size (pool (cpool w)).
Proof.
  intros Hperm Hbase Hlive.
  rewrite (dtor_loop_base virtual_close its
             (registry_not_overridden virtual_close w its Hperm Hbase) w).
  destruct (dtor_loop_spec its w) as (new & Ht & Hf & _).
  exists new. split; [exact Ht|]. split; [exact Hf|].
  assert (Hall : Forall (fun it : Z * conn_t => is_Some (conns w !! it.2)) its).
  { apply Forall_forall. intros [h l] Hin. cbn [snd].
    rewrite Hperm in Hin. apply elem_of_map_to_list in Hin. eapply Hlive, Hin. }
  pose proof (proj2 (dtor_loop_frame its w) Hall) as Hlen.
  rewrite Ht, length_app in Hlen.
  rewrite <- length_map_to_list, <- Hperm. lia.
Qed.

Lemma dtor_one_close_per_entry_witness :
  let init := {| seg_buff_size := word.of_Z 4096; self_ref := None; fd := 3;
       mode := PASSIVE; addr := mk_NetAddr 0 0; send_buffer := empty;
       recv_buffer := empty; ev_read := Event_none;
       ev_write := Event_none; ev_connect := Event_none; ready_send := false |} in
  let p := with_registry {[ 3%Z := 7 ]} (ctor 0 Args0 (-1)) in
  let w := {| conns := {[ 7 := Conn_ctor 7 init ]}; cpool := p; trace := [] |} in
  [(3%Z, 7)] ≡ₚ map_to_list (pool (cpool w)) /\
  (forall h l, pool (cpool w) !! h = Some l -> close_not_overridden Conn_close l) /\
  (forall h l, pool (cpool w) !! h = Some l -> is_Some (conns w !! l)) /\
  exists new,
    trace (dtor_loop Conn_close [(3%Z, 7)] w) = trace w ++ new /\
    Forall is_sys_close new /\ length new = base.size (pool (cpool w)).
Proof.
  intros init p w.
  assert (Hperm : [(3%Z, 7)] ≡ₚ map_to_list (pool (cpool w))).
  { cbn [w cpool p with_registry pool]. rewrite map_to_list_singleton. reflexivity. }
  assert (Hbase : forall h l, pool (cpool w) !! h = Some l ->
                    close_not_overridden Conn_close l)
    by (intros h l _ w'; reflexivity).
  assert (Hlive : forall h l, pool (cpool w) !! h = Some l -> is_Some (conns w !! l)).
  { intros h l Hh. cbn [w cpool p with_registry pool] in Hh.
    apply lookup_singleton_Some in Hh. destruct Hh as [_ <-]. eexists. reflexivity. }
  split; [exact Hperm|]. split; [exact Hbase|]. split; [exact Hlive|].
  exact (dtor_one_close_per_entry Conn_close w [(3%Z, 7)] Hperm Hbase Hlive).
Defined.

(** * type.h: log2 *)

Section Log2.

Local Open Scope Z_scope.

(** The template computes the binary logarithm of the library. *)
Lemma log2_is_N_log2 (n : N) : TypeH.log2 n = Z.of_N (N.log2 n).
Proof.
  funelim (TypeH.log2 n).
  - subst. reflexivity.
  - subst. reflexivity.
  - match goal with IH : TypeH.log2 _ = Z.of_N _ |- _ => rewrite IH end.
    assert (Hh : (0 < n / 2)%N) by (apply N.div_str_pos; lia).
    destruct (N.log2_spec (n / 2) Hh) as [Hlo Hhi].
    assert (E : N.log2 n = N.succ (N.log2 (n / 2))).
    { apply N.log2_unique; [lia|]. rewrite !N.pow_succ_r' in *.
      assert (Hd : n = (2 * (n / 2) + n mod 2)%N) by (apply N.div_mod; lia).
      assert (Hm : (n mod 2 < 2)%N) by (apply N.mod_lt; lia).
      clear - Hlo Hhi Hd Hm.
      set (p := (2 ^ N.log2 (n / 2))%N) in *. clearbody p.
      set (q := (n / 2)%N) in *. clearbody q.
      set (r := (n mod 2)%N) in *. clearbody r. lia. }
    rewrite E. lia.
Qed.

End Log2.

(** X11: [log2<N>::value] is the position of the highest set bit of
    [N]: for [N >= 1], 2^value <= N < 2^(value+1); it is 0 for [N = 0], never
    negative, and at most 63 for a 64-bit [N]. *)
Theorem log2_floor (n : N) :
  TypeH.log2 0 = 0%Z /\
  (0 <= TypeH.log2 n)%Z /\
  ((1 <= n)%N ->
     (2 ^ TypeH.log2 n <= Z.of_N n < 2 ^ (TypeH.log2 n + 1))%Z) /\
  ((n < 2 ^ 64)%N -> (TypeH.log2 n <= 63)%Z).
Proof.
  split; [reflexivity|]. rewrite log2_is_N_log2. split; [lia|]. split.
  - intros Hn. assert (Hpos : (0 < n)%N) by lia.
    destruct (N.log2_spec n Hpos) as [Hlo Hhi].
    replace (Z.of_N (N.log2 n) + 1)%Z with (Z.of_N (N.succ (N.log2 n))) by lia.
    rewrite <- !(N2Z.inj_pow 2). lia.
  - intros Hn. destruct (N.eq_dec n 0%N) as [->|Hne]; [cbn; lia|].
    assert (N.log2 n < 64)%N; [|lia].
    apply N.log2_lt_pow2; lia.
Qed.

Lemma log2_floor_witness :
  (1 <= 4096)%N /\ (4096 < 2 ^ 64)%N /\ TypeH.log2 4096 = 12%Z /\
  (2 ^ TypeH.log2 4096 <= Z.of_N 4096 < 2 ^ (TypeH.log2 4096 + 1))%Z /\
  (TypeH.log2 4096 <= 63)%Z.
Proof.
  assert (H1 : (1 <= 4096)%N) by lia.
  assert (H2 : (4096 < 2 ^ 64)%N) by (vm_compute; reflexivity).
  split; [exact H1|]. split; [exact H2|].
  split; [rewrite log2_is_N_log2; reflexivity|].
  destruct (log2_floor 4096) as (_ & _ & Hb & Hr).
  split; [exact (Hb H1)|exact (Hr H2)].
Defined.

(** X12: [log2<N>::value] is exact on powers of two, [log2<2^k> = k],
    and grows with [N]. *)
Theorem log2_pow2_monotone (k n m : N) :
  TypeH.log2 (2 ^ k) = Z.of_N k /\
  ((n <= m)%N -> (TypeH.log2 n <= TypeH.log2 m)%Z).
Proof.
  rewrite !log2_is_N_log2. split.
  - rewrite N.log2_pow2 by lia. reflexivity.
  - intros H. apply N2Z.inj_le, N.log2_le_mono, H.
Qed.

Lemma log2_pow2_monotone_witness :
  (5 <= 9)%N /\ TypeH.log2 (2 ^ 3) = 3%Z /\ (TypeH.log2 5 <= TypeH.log2 9)%Z.
Proof.
  assert (H : (5 <= 9)%N) by lia.
  split; [exact H|].
  destruct (log2_pow2_monotone 3 5 9) as [Hp Hm].
  split; [exact Hp|exact (Hm H)].
Defined.

(** * size() as the application reads it *)

(** X13: on a buffer reached by [push], [pop] and [clear] that holds
    fewer than 2^64 bytes, [size()] is 0 exactly when there is no byte to
    pop, and a [pop] lowers [size()] by the number of bytes it returns,
    which is at most the length asked for and at most [size()]. *)
Theorem size_tracks_pops (b : RingBuffer.t) (len : nat) :
  reachable b -> (Z.of_nat (total b) < 2 ^ 64)%Z ->
  (word.unsigned (size b) = 0%Z <-> contents b = []) /\
  exists res b',
    pop len b = Some (res, b') /\
    length res <= len /\
    (Z.of_nat (length res) <= word.unsigned (size b))%Z /\
    word.unsigned (size b') = (word.unsigned (size b) - Z.of_nat (length res))%Z.
Proof.
  intros Hr Hlt.
  pose proof (reachable_wf b Hr) as Hwf.
  assert (Hs : word.unsigned (size b) = Z.of_nat (total b)).
  { rewrite (size_ok_unsigned b (reachable_size_ok b Hr)). apply Z.mod_small. lia. }
  split.
  - rewrite Hs, <- length_contents. split.
    + intros H. apply length_zero_iff_nil. lia.
    + intros ->. reflexivity.
  - destruct (pop_spec b len Hwf) as (b' & k & m & E & Hc & _).
    exists (take len (contents b)), b'. split; [exact E|].
    assert (Hr' : reachable b') by (eapply reach_pop; eauto).
    assert (Hlen : length (take len (contents b)) = Nat.min len (total b))
      by (rewrite length_take, length_contents; reflexivity).
    assert (Ht' : total b' = total b - Nat.min len (total b)).
    { rewrite <- (length_contents b'), Hc, length_drop, length_contents. lia. }
    split; [lia|]. split; [lia|].
    rewrite (size_ok_unsigned b' (reachable_size_ok b' Hr')), Z.mod_small by lia.
    lia.
Qed.

Lemma size_tracks_pops_witness :
  let b := push [x04; x05]%byte (push [x01; x02; x03]%byte empty) in
  reachable b /\ (Z.of_nat (total b) < 2 ^ 64)%Z /\
  exists res b',
    pop 4 b = Some (res, b') /\ length res <= 4 /\
    (Z.of_nat (length res) <= word.unsigned (size b))%Z /\
    word.unsigned (size b') = (word.unsigned (size b) - Z.of_nat (length res))%Z.
Proof.
  intros b.
  assert (Hr : reachable b) by (do 2 apply reach_push; apply reach_empty).
  assert (Hlt : (Z.of_nat (total b) < 2 ^ 64)%Z) by (vm_compute; reflexivity).
  split; [exact Hr|]. split; [exact Hlt|].
  exact (proj2 (size_tracks_pops b 4 Hr Hlt)).
Defined.

Example log2_exec : TypeH.log2 4096 = 12%Z /\ TypeH.log2 1000 = 9%Z.
Proof. split; vm_compute; reflexivity. Qed.
